(** * Streaming evaluation metrics of [metrics.py]

    A shallow embedding of the weighted accumulators ([NLL], [BPD],
    [Perplexity]), of the sample-entropy recorder and of the
    generative-perplexity loop of [Metrics], followed by the properties
    the specification states about them.

    Numbers.  Finite tensor entries are exact rationals ([Q]); rounding is
    not modelled, so every statement below is about exact arithmetic.  The
    IEEE special values are kept as constructors of [fp].  Logarithms and
    exponentials live in [R]. *)

From Stdlib Require Import String.
From Stdlib Require Import List ZArith QArith Qreals Reals Lra Lia Bool.
From Stdlib Require Import Permutation.
From Stdlib Require Lqa.
Import ListNotations.

Set Implicit Arguments.

(** ** Values and errors *)

(** A floating-point entry over an exact carrier [A]. *)
Inductive fp (A : Type) : Type :=
| Fin (x : A)
| PInf
| NInf
| NaN.

Arguments PInf {A}.
Arguments NInf {A}.
Arguments NaN {A}.

(** Python exceptions the modelled code can raise. *)
Inductive exn : Type :=
| RuntimeError
| ZeroDivisionError
| AttributeError
| ValueError.

Inductive result (A : Type) : Type :=
| Ok (a : A)
| Raise (e : exn).

Arguments Raise {A} e.

Definition bind {A B : Type} (r : result A) (k : A -> result B) : result B :=
  match r with
  | Ok a => k a
  | Raise e => Raise e
  end.

Notation "x <- r ;; k" := (bind r (fun x => k))
  (at level 61, r at next level, right associativity).

(** A Python [for] loop whose body may raise. *)
Fixpoint for_each {A S : Type} (body : S -> A -> result S) (xs : list A) (s : S)
  : result S :=
  match xs with
  | [] => Ok s
  | x :: rest => s' <- body s x ;; for_each body rest s'
  end.

(** A tensor seen through its flattened entries; a Python float is the
    one-entry tensor. *)
Definition tensor : Type := list (fp Q).

Definition numel {A : Type} (t : list A) : nat := length t.

Definition scalar (q : Q) : tensor := [Fin q].

Definition isfinite {A : Type} (e : fp A) : bool :=
  match e with
  | Fin _ => true
  | _ => false
  end.

(** [Tensor.sum()] of finite entries. *)
Definition sum (xs : list Q) : Q := fold_right Qplus 0 xs.

(** IEEE division over exact rationals (signed zeros are not modelled). *)
Definition fdiv (x y : fp Q) : fp Q :=
  match x, y with
  | NaN, _ | _, NaN => NaN
  | Fin a, Fin b =>
      if Qeq_bool b 0 then
        match a ?= 0 with
        | Eq => NaN
        | Gt => PInf
        | Lt => NInf
        end
      else Fin (a / b)
  | Fin _, _ => Fin 0
  | PInf, Fin b => if Qle_bool 0 b then PInf else NInf
  | NInf, Fin b => if Qle_bool 0 b then NInf else PInf
  | _, _ => NaN
  end.

(** Equality of entries up to the representation of the rational. *)
Definition fp_eq (x y : fp Q) : Prop :=
  match x, y with
  | Fin a, Fin b => a == b
  | PInf, PInf | NInf, NInf | NaN, NaN => True
  | _, _ => False
  end.

(** ** The accumulator: [class NLL(MeanMetric)] *)

Module NLL.

(** The two running sums [self.mean_value] and [self.weight]. *)
Record t : Type := mk { mean_value : Q; weight : Q }.

(** Modelled from the spec: the constructor and [reset()] come from
    torchmetrics' [MeanMetric], which is not under src/; both sums start
    at, and are reset to, zero. *)
Definition reset : t := mk 0 0.

Definition equiv (a b : t) : Prop :=
  mean_value a == mean_value b /\ weight a == weight b.

(** [torch.broadcast_to(weight, value.shape)] on flattened tensors: a
    weight of the value's shape is kept, a one-entry weight is repeated,
    anything else is rejected. *)
Definition broadcast_to (w : tensor) (n : nat) : result tensor :=
  if (length w =? n)%nat then Ok w
  else match w with
       | [x] => Ok (repeat x n)
       | _ => Raise RuntimeError
       end.

(** The index set that survives the check: positions where the value and
    the weight are both finite. *)
Definition paired_valid (p : fp Q * fp Q) : list (Q * Q) :=
  match p with
  | (Fin v, Fin w) => [(v, w)]
  | _ => []
  end.

(** Modelled from the spec: [_cast_and_nan_check_input] comes from
    torchmetrics' [MeanMetric], which is not under src/.  The spec's words:
    non-finite entries are filtered consistently for both value and weight,
    paired elementwise, and nothing is raised. *)
Definition cast_and_nan_check_input (value weight : tensor)
  : list Q * list Q :=
  let kept := flat_map paired_valid (combine value weight) in
  (map fst kept, map snd kept).

(** [NLL.update] (metrics.py, lines 14-44). *)
Definition update (self : t) (value weight : tensor) : result t :=
  weight <- broadcast_to weight (length value) ;;
  let (value, weight) := cast_and_nan_check_input value weight in
  if (numel value =? 0)%nat then Ok self
  else Ok (mk (mean_value self + sum value) (NLL.weight self + sum weight)).

(** Modelled from the spec: [compute()] of [NLL] is inherited from
    torchmetrics' [MeanMetric], which is not under src/; it returns the
    ratio of the two running sums, an unguarded division. *)
Definition compute (self : t) : fp Q :=
  fdiv (Fin (mean_value self)) (Fin (weight self)).

(** A sequence of [update] calls. *)
Definition updates (self : t) (calls : list (tensor * tensor)) : result t :=
  for_each (fun s c => update s (fst c) (snd c)) calls self.

End NLL.

(** ** Real-valued read-outs: [BPD] and [Perplexity] *)

(** IEEE division over exact reals (signed zeros are not modelled). *)
Definition Rfdiv (x y : fp R) : fp R :=
  match x, y with
  | NaN, _ | _, NaN => NaN
  | Fin a, Fin b =>
      if Req_dec_T b 0 then
        if Req_dec_T a 0 then NaN
        else if Rlt_dec 0 a then PInf else NInf
      else Fin (a / b)%R
  | Fin _, _ => Fin 0%R
  | PInf, Fin b => if Rle_dec 0 b then PInf else NInf
  | NInf, Fin b => if Rle_dec 0 b then NInf else PInf
  | _, _ => NaN
  end.

(** IEEE addition over exact reals. *)
Definition Rfadd (x y : fp R) : fp R :=
  match x, y with
  | NaN, _ | _, NaN => NaN
  | Fin a, Fin b => Fin (a + b)%R
  | PInf, NInf | NInf, PInf => NaN
  | PInf, _ | _, PInf => PInf
  | NInf, _ | _, NInf => NInf
  end.

(** [torch.exp]. *)
Definition Rfexp (x : fp R) : fp R :=
  match x with
  | Fin a => Fin (exp a)
  | PInf => PInf
  | NInf => Fin 0%R
  | NaN => NaN
  end.

(** A rational entry read as a real one. *)
Definition toR (x : fp Q) : fp R :=
  match x with
  | Fin q => Fin (Q2R q)
  | PInf => PInf
  | NInf => NInf
  | NaN => NaN
  end.

(** [LOG2 = math.log(2)]. *)
Definition LOG2 : R := ln 2.

(** [class BPD(NLL)]: the state and [update] are those of [NLL]. *)
Module BPD.

(** [self.mean_value / self.weight / LOG2]. *)
Definition compute (self : NLL.t) : fp R :=
  Rfdiv (Rfdiv (Fin (Q2R (NLL.mean_value self))) (Fin (Q2R (NLL.weight self))))
        (Fin LOG2).

End BPD.

(** [class Perplexity(NLL)]: the state and [update] are those of [NLL]. *)
Module Perplexity.

(** [torch.exp(self.mean_value / self.weight)]. *)
Definition compute (self : NLL.t) : fp R :=
  Rfexp (Rfdiv (Fin (Q2R (NLL.mean_value self))) (Fin (Q2R (NLL.weight self)))).

End Perplexity.

(** ** The entropy accumulator: [torchmetrics.aggregation.MeanMetric] *)

Module MeanMetric.

(** The running sum and the running count of the entropies, which are real
    numbers. *)
Record t : Type := mk { mean_value : R; weight : R }.

(** Modelled from the spec: the constructor and [reset()] of torchmetrics'
    [MeanMetric] are not under src/; both sums start at, and are reset to,
    zero. *)
Definition reset : t := mk 0 0.

(** Modelled from the spec: [MeanMetric.update] is torchmetrics code that is
    not under src/.  Called with one float and the default weight 1.0 it adds
    the value to the running sum and one to the running count, after the
    same non-finite filtering as above. *)
Definition update (self : t) (value : fp R) : t :=
  match value with
  | Fin v => mk (mean_value self + v * 1) (weight self + 1)
  | _ => self
  end.

End MeanMetric.

(** [torch.unique(sample, return_counts=True, sorted=False)]: the number of
    occurrences of every distinct value. *)
Definition unique_counts (sample : list Z) : list Z :=
  map (fun v => Z.of_nat (count_occ Z.eq_dec sample v)) (nodup Z.eq_dec sample).

(** [torch.special.entr]. *)
Definition entr (p : R) : fp R :=
  if Rlt_dec 0 p then Fin (- p * ln p)%R
  else if Req_dec_T p 0 then Fin 0%R
  else NInf.

Definition Rfsum (xs : list (fp R)) : fp R := fold_right Rfadd (Fin 0%R) xs.

(** [entr(counts.float() / counts.sum()).sum().item()]. *)
Definition sample_entropy_of (sample : list Z) : fp R :=
  let counts := unique_counts sample in
  let total := fold_right Z.add 0%Z counts in
  Rfsum (map (fun c => entr (IZR c / IZR total)) counts).

(** The spec's words: the Shannon entropy, in nats, of the empirical
    distribution of the distinct token values of a sample, with
    [0 * log 0 = 0]. *)
Definition plogp (p : R) : R := if Req_dec_T p 0 then 0%R else (p * ln p)%R.

Definition empirical (sample : list Z) (v : Z) : R :=
  (INR (count_occ Z.eq_dec sample v) / INR (length sample))%R.

Definition shannon_entropy (sample : list Z) : R :=
  (- fold_right Rplus 0 (map (fun v => plogp (empirical sample v))
                             (nodup Z.eq_dec sample)))%R.

(** ** Two-dimensional token tensors *)

(** A [[rows, columns]] tensor of token ids or of mask entries, row by row. *)
Definition tokens2 : Type := list (list Z).

(** [t.shape[-1]]. *)
Definition ncols (t : tokens2) : nat :=
  match t with
  | [] => 0
  | row :: _ => length row
  end.

(** [t[lo:hi]] for [0 <= lo <= hi]. *)
Definition slice {A : Type} (lo hi : nat) (l : list A) : list A :=
  firstn (hi - lo) (skipn lo l).

(** [torch.split(t, k, dim=-1)]: consecutive column blocks of width [k], the
    last one possibly narrower; always at least one block; a zero width is
    accepted only for a tensor without columns. *)
Definition split (t : tokens2) (k : nat) : result (list tokens2) :=
  if (k =? 0)%nat then
    if (ncols t =? 0)%nat then Ok [t] else Raise RuntimeError
  else
    Ok (map (fun j => map (slice (j * k) ((j + 1) * k)) t)
            (seq 0 (Nat.max 1 ((ncols t + k - 1) / k)))).

(** [row.cumsum(-1)]. *)
Fixpoint cumsum_from (acc : Z) (row : list Z) : list Z :=
  match row with
  | [] => []
  | x :: rest => (acc + x)%Z :: cumsum_from (acc + x)%Z rest
  end.

Definition cumsum (row : list Z) : list Z := cumsum_from 0%Z row.

Definition b2z (b : bool) : Z := if b then 1%Z else 0%Z.

(** One row of [(sample_chunk == eos_token_id).cumsum(-1) == 1]. *)
Definition first_eos (eos : Z) (row : list Z) : list bool :=
  map (fun c => (c =? 1)%Z) (cumsum (map (fun tok => b2z (tok =? eos)%Z) row)).

(** One row of [sample_chunk != eos_token_id]. *)
Definition token_mask (eos : Z) (row : list Z) : list bool :=
  map (fun tok => negb (tok =? eos)%Z) row.

(** Elementwise [+] of two boolean tensors, which torch computes as [or]. *)
Fixpoint bool_add (xs ys : list bool) : list bool :=
  match xs, ys with
  | x :: xs', y :: ys' => (x || y) :: bool_add xs' ys'
  | _, _ => []
  end.

(** The mask before the shift: [first_eos + token_mask]. *)
Definition validity_mask (eos : Z) (row : list Z) : list bool :=
  bool_add (first_eos eos row) (token_mask eos row).

(** One row of [first_eos[..., 1:] + token_mask[..., 1:]]. *)
Definition valid_tokens (eos : Z) (row : list Z) : list bool :=
  bool_add (tl (first_eos eos row)) (tl (token_mask eos row)).

(** A boolean mask entry cast to the metric's dtype. *)
Definition b2q (b : bool) : Q := if b then 1 else 0.

(** One row of [nlls * valid_tokens]. *)
Fixpoint mul_mask (nlls : list Q) (mask : list bool) : list Q :=
  match nlls, mask with
  | x :: nlls', m :: mask' => (x * b2q m) :: mul_mask nlls' mask'
  | _, _ => []
  end.

(** ** The facade: [class Metrics] *)

Module Metrics.

(** [MetricCollection({'nll': NLL(), 'bpd': BPD(), 'ppl': Perplexity()})]. *)
Record collection : Type :=
  mk_collection { nll : NLL.t; bpd : NLL.t; ppl : NLL.t }.

(** The state of a [Metrics] object.  [eos_token_id] stands for
    [self.tokenizer.eos_token_id]. *)
Record t : Type := mk {
  train_nlls : collection;
  train_recons : NLL.t;
  valid_nlls : collection;
  valid_recons : NLL.t;
  gen_ppl : NLL.t;
  sample_entropy : MeanMetric.t;
  eval_ppl_batch_size : Z;
  gen_ppl_eval_model_name_or_path : string;
  eos_token_id : Z
}.

(** [self.gen_ppl] after an in-place update. *)
Definition set_gen_ppl (self : t) (g : NLL.t) : t :=
  mk (train_nlls self) (train_recons self) (valid_nlls self)
     (valid_recons self) g (sample_entropy self) (eval_ppl_batch_size self)
     (gen_ppl_eval_model_name_or_path self) (eos_token_id self).

(** [self.sample_entropy] after an in-place update. *)
Definition set_sample_entropy (self : t) (e : MeanMetric.t) : t :=
  mk (train_nlls self) (train_recons self) (valid_nlls self)
     (valid_recons self) (gen_ppl self) e (eval_ppl_batch_size self)
     (gen_ppl_eval_model_name_or_path self) (eos_token_id self).

(** A collection whose members are all reset. *)
Definition reset_collection : collection :=
  mk_collection NLL.reset NLL.reset NLL.reset.

(** [Metrics.reset]. *)
Definition reset (self : t) : t :=
  mk reset_collection NLL.reset reset_collection NLL.reset NLL.reset
     MeanMetric.reset (eval_ppl_batch_size self)
     (gen_ppl_eval_model_name_or_path self) (eos_token_id self).

(** [Metrics.__init__]: fresh accumulators, the configured batch size and
    model name, and the end-of-sequence id of the loaded tokenizer. *)
Definition init (gen_ppl_eval_model_name_or_path : string)
    (eval_ppl_batch_size : Z) (eos_token_id : Z) : t :=
  mk reset_collection NLL.reset reset_collection NLL.reset NLL.reset
     MeanMetric.reset eval_ppl_batch_size gen_ppl_eval_model_name_or_path
     eos_token_id.

(** [MetricCollection.update]: the call is forwarded to every member. *)
Definition update_collection (c : collection) (value weight : tensor)
  : result collection :=
  a <- NLL.update (nll c) value weight ;;
  b <- NLL.update (bpd c) value weight ;;
  p <- NLL.update (ppl c) value weight ;;
  Ok (mk_collection a b p).

(** [Metrics.update_train]. *)
Definition update_train (self : t) (nll recons_loss num_tokens : tensor)
  : result t :=
  c <- update_collection (train_nlls self) nll num_tokens ;;
  r <- NLL.update (train_recons self) recons_loss num_tokens ;;
  Ok (mk c r (valid_nlls self) (valid_recons self) (gen_ppl self)
         (sample_entropy self) (eval_ppl_batch_size self)
         (gen_ppl_eval_model_name_or_path self) (eos_token_id self)).

(** [Metrics.update_valid]. *)
Definition update_valid (self : t) (nll recons_loss num_tokens : tensor)
  : result t :=
  c <- update_collection (valid_nlls self) nll num_tokens ;;
  r <- NLL.update (valid_recons self) recons_loss num_tokens ;;
  Ok (mk (train_nlls self) (train_recons self) c r (gen_ppl self)
         (sample_entropy self) (eval_ppl_batch_size self)
         (gen_ppl_eval_model_name_or_path self) (eos_token_id self)).

(** [Metrics.record_entropy]: one [update] per sample. *)
Definition record_entropy (self : t) (tokens : tokens2) : t :=
  fold_left
    (fun self sample =>
       set_sample_entropy self
         (MeanMetric.update (sample_entropy self) (sample_entropy_of sample)))
    tokens self.

(** ['llama2' in self.gen_ppl_eval_model_name_or_path]. *)
Definition is_llama2 (self : t) : bool :=
  match String.index 0 "llama2" (gen_ppl_eval_model_name_or_path self) with
  | Some _ => true
  | None => false
  end.

(** The argument [text_samples]: strings, or token ids when the caller
    passes [retokenize=False]. *)
Inductive samples_arg : Type :=
| Text (s : list string)
| Tokens (ids : tokens2).

Section GenerativePerplexity.

(** The reference tokenizer: strings and [max_length] to
    [(input_ids, attention_mask)]. *)
Variable tokenizer : list string -> Z -> tokens2 * tokens2.

(** The reference model followed by [F.cross_entropy(logits[..., :-1],
    sample_chunk[..., 1:], reduction='none')]: the loss of row [i] at shifted
    position [j] of a chunk scored under an attention mask. *)
Variable eval_nll : tokens2 -> tokens2 -> nat -> nat -> Q.

(** [Metrics._eval_retokenize]. *)
Definition eval_retokenize (self : t) (text_samples : list string)
    (max_length : Z) : tokens2 * tokens2 * nat :=
  let eval_context_size := if is_llama2 self then 4096%nat else 1024%nat in
  let (samples, attn_mask) := tokenizer text_samples max_length in
  (samples, attn_mask, eval_context_size).

(** The tensor [nlls] of one chunk, of shape [[rows, columns - 1]]. *)
Definition cross_entropy (sample_chunk attn_mask_chunk : tokens2)
  : list (list Q) :=
  map (fun ir =>
         map (eval_nll sample_chunk attn_mask_chunk (fst ir))
             (seq 0 (length (snd ir) - 1)))
      (combine (seq 0 (length sample_chunk)) sample_chunk).

(** The body of the inner loop (lines 199-210). *)
Definition score_chunk (self : t) (chunk : tokens2 * tokens2) : result t :=
  let (sample_chunk, attn_mask_chunk) := chunk in
  let nlls := cross_entropy sample_chunk attn_mask_chunk in
  let valid_tokens := map (valid_tokens (eos_token_id self)) sample_chunk in
  g <- NLL.update (gen_ppl self)
         (map (@Fin Q) (concat (map (fun p => mul_mask (fst p) (snd p))
                                    (combine nlls valid_tokens))))
         (map (fun b => Fin (b2q b)) (concat valid_tokens)) ;;
  Ok (set_gen_ppl self g).

(** The body of the outer loop (lines 189-210). *)
Definition score_batch (samples attn_mask : tokens2) (eval_context_size : nat)
    (batch_size : nat) (self : t) (i : nat) : result t :=
  _samples <- split (slice (i * batch_size) ((i + 1) * batch_size) samples)
                    eval_context_size ;;
  _attn_mask <- split (slice (i * batch_size) ((i + 1) * batch_size) attn_mask)
                      eval_context_size ;;
  for_each score_chunk (combine _samples _attn_mask) self.

(** Lines 185-210: batching, chunking, masking and accumulation. *)
Definition score_samples (self : t) (samples attn_mask : tokens2)
    (eval_context_size : nat) : result t :=
  let batch_size :=
    Z.min (eval_ppl_batch_size self) (Z.of_nat (length samples)) in
  if (batch_size =? 0)%Z then Raise ZeroDivisionError
  else
    let num_batches := (Z.of_nat (length samples) / batch_size)%Z in
    for_each (score_batch samples attn_mask eval_context_size
                          (Z.to_nat batch_size))
             (seq 0 (Z.to_nat num_batches)) self.

(** Lines 176-184: the token ids, the attention mask and the chunk width,
    from the tokenizer or from the caller's tensor.  A list of strings has
    no [shape], and the tokenizer takes no tensor. *)
Definition prepare (self : t) (text_samples : samples_arg) (max_length : Z)
    (retokenize : bool) : result (tokens2 * tokens2 * nat) :=
  match retokenize, text_samples with
  | true, Text s => Ok (eval_retokenize self s max_length)
  | false, Tokens samples =>
      let attn_mask := map (map (fun _ => 1%Z)) samples in
      let eval_context_size := ncols samples in
      Ok (samples, attn_mask, eval_context_size)
  | false, Text _ => Raise AttributeError
  | true, Tokens _ => Raise ValueError
  end.

(** [Metrics.record_generative_perplexity]. *)
Definition record_generative_perplexity (self : t)
    (text_samples : samples_arg) (max_length : Z) (retokenize : bool)
  : result t :=
  p <- prepare self text_samples max_length retokenize ;;
  let '(samples, attn_mask, eval_context_size) := p in
  score_samples self samples attn_mask eval_context_size.

End GenerativePerplexity.

End Metrics.

(** ** Vocabulary of the statements *)

(** The [(value, weight)] pairs one [update] call accumulates: what is left
    after the broadcast and the paired check. *)
Definition surviving (call : tensor * tensor) : list (Q * Q) :=
  match NLL.broadcast_to (snd call) (length (fst call)) with
  | Ok w => flat_map NLL.paired_valid (combine (fst call) w)
  | Raise _ => []
  end.

(** The paired-valid index set of a whole sequence of calls. *)
Definition all_surviving (calls : list (tensor * tensor)) : list (Q * Q) :=
  flat_map surviving calls.

(** The spec's words: [sum(value_i * weight_i) / sum(weight_i)]. *)
Definition weighted_mean_spec (pairs : list (Q * Q)) : fp Q :=
  fdiv (Fin (sum (map (fun p => fst p * snd p) pairs)))
       (Fin (sum (map snd pairs))).

(** What the code accumulates: [sum(value_i) / sum(weight_i)]. *)
Definition ratio_of_sums (pairs : list (Q * Q)) : fp Q :=
  fdiv (Fin (sum (map fst pairs))) (Fin (sum (map snd pairs))).

(** Every finite entry of a tensor is non-negative. *)
Definition nonneg (xs : tensor) : Prop :=
  forall q, In (Fin q) xs -> 0 <= q.

(** A call whose weight broadcasts to the shape of its value. *)
Definition accepted (call : tensor * tensor) : Prop :=
  exists w, NLL.broadcast_to (snd call) (length (fst call)) = Ok w.

(** The number of positions a mask keeps. *)
Definition count_true (mask : list bool) : nat :=
  length (filter (fun b => b) mask).

(** A count read in the metric's dtype. *)
Definition natQ (n : nat) : Q := inject_Z (Z.of_nat n).

(** The chunks of one sample: its columns in blocks of width [k]. *)
Definition row_chunks (k : nat) (row : list Z) : list (list Z) :=
  map (fun j => slice (j * k) ((j + 1) * k) row)
      (seq 0 (Nat.max 1 ((length row + k - 1) / k))).

(** The valid token positions of one sample: over its chunks, the shifted
    positions the validity mask keeps. *)
Definition valid_positions (eos : Z) (k : nat) (row : list Z) : nat :=
  list_sum (map (fun c => count_true (valid_tokens eos c)) (row_chunks k row)).

(** The valid token positions of a list of samples. *)
Definition total_valid (eos : Z) (k : nat) (samples : tokens2) : nat :=
  list_sum (map (valid_positions eos k) samples).

(** [batch_size] and [num_batches] of lines 185-187. *)
Definition batch_size_of (self : Metrics.t) (samples : tokens2) : Z :=
  Z.min (Metrics.eval_ppl_batch_size self) (Z.of_nat (length samples)).

Definition num_batches_of (self : Metrics.t) (samples : tokens2) : Z :=
  (Z.of_nat (length samples) / batch_size_of self samples)%Z.

(** The samples that fall into a full group. *)
Definition scored (self : Metrics.t) (samples : tokens2) : tokens2 :=
  firstn (Z.to_nat (num_batches_of self samples)
          * Z.to_nat (batch_size_of self samples)) samples.

(** All rows have [L] columns. *)
Definition rectangular (L : nat) (t : tokens2) : Prop :=
  Forall (fun row => length row = L) t.

(** The fields the scoring loop leaves alone. *)
Definition same_config (a b : Metrics.t) : Prop :=
  Metrics.eos_token_id b = Metrics.eos_token_id a /\
  Metrics.eval_ppl_batch_size b = Metrics.eval_ppl_batch_size a /\
  Metrics.sample_entropy b = Metrics.sample_entropy a.


(** ** Vocabulary of the further statements *)

(** The finite entries of a value tensor, in order. *)
Definition finite_values (value : tensor) : list Q :=
  flat_map (fun e => match e with Fin v => [v] | _ => [] end) value.

(** The three members of a collection hold the same sums. *)
Definition in_sync (c : Metrics.collection) : Prop :=
  Metrics.bpd c = Metrics.nll c /\ Metrics.ppl c = Metrics.nll c.

(** Both collections of a [Metrics] object are in sync. *)
Definition synced (self : Metrics.t) : Prop :=
  in_sync (Metrics.train_nlls self) /\ in_sync (Metrics.valid_nlls self).

(** Everything of a [Metrics] object except [gen_ppl] is the same. *)
Definition same_but_gen_ppl (a b : Metrics.t) : Prop :=
  Metrics.set_gen_ppl b (Metrics.gen_ppl a) = a.

(** Between two states of a [Metrics] object, [gen_ppl] gained weight
    [dW >= 0] and value between [lo * dW] and [hi * dW]. *)
Definition gained_within (lo hi : Q) (a b : Metrics.t) : Prop :=
  let dW := NLL.weight (Metrics.gen_ppl b) - NLL.weight (Metrics.gen_ppl a) in
  let dM := NLL.mean_value (Metrics.gen_ppl b)
            - NLL.mean_value (Metrics.gen_ppl a) in
  0 <= dW /\ lo * dW <= dM /\ dM <= hi * dW.

(** A padded sample: content followed by at least one end-of-sequence
    token. *)
Definition padded (eos : Z) (cm : list Z * nat) : list Z :=
  fst cm ++ repeat eos (S (snd cm)).

(** The spec's words: the valid (non-padding, non-trailing-EOS) token
    positions of a sample, read as the shifted positions that the attention
    mask attends to and that the validity mask keeps. *)
Definition non_padding_valid (eos : Z) (row attn : list Z) : nat :=
  count_true (map (fun p => fst p && (snd p =? 1)%Z)
                  (combine (valid_tokens eos row) (tl attn))).

(** Five retokenized samples of a tokenizer whose pad id (99) is not its
    end-of-sequence id (0), and their attention mask. *)
Definition padded_batch_ids : tokens2 :=
  [[5; 6; 99; 99]; [5; 6; 7; 8]; [5; 6; 7; 99]; [5; 6; 7; 8];
   [5; 99; 99; 99]]%Z.

Definition padded_batch_mask : tokens2 :=
  [[1; 1; 0; 0]; [1; 1; 1; 1]; [1; 1; 1; 0]; [1; 1; 1; 1];
   [1; 0; 0; 0]]%Z.

(** * Properties *)

(** ** Sums and the error monad *)

Lemma sum_app (xs ys : list Q) : sum (xs ++ ys) == sum xs + sum ys.
Proof.
  induction xs as [|x xs IH]; simpl.
  - ring.
  - rewrite IH. ring.
Qed.

Lemma sum_perm (xs ys : list Q) : Permutation xs ys -> sum xs == sum ys.
Proof.
  induction 1 as [|x xs ys _ IH|x y xs|xs ys zs _ IH1 _ IH2]; simpl.
  - reflexivity.
  - rewrite IH. reflexivity.
  - ring.
  - rewrite IH1. exact IH2.
Qed.

Lemma sum_nonneg (xs : list Q) : (forall q, In q xs -> 0 <= q) -> 0 <= sum xs.
Proof.
  induction xs as [|x xs IH]; simpl; intros H.
  - apply Qle_refl.
  - assert (0 <= x) by (apply H; now left).
    assert (0 <= sum xs) by (apply IH; intros q Hq; apply H; now right).
    replace 0 with (0 + 0) by reflexivity.
    now apply Qplus_le_compat.
Qed.

Lemma for_each_app {A S : Type} (body : S -> A -> result S) xs ys s :
  for_each body (xs ++ ys) s = (s' <- for_each body xs s ;; for_each body ys s').
Proof.
  revert s. induction xs as [|x xs IH]; intros s; simpl.
  - reflexivity.
  - destruct (body s x); simpl; auto.
Qed.

(** ** One [update] call *)

Lemma fdiv_equiv a b c d :
  a == c -> b == d -> fp_eq (fdiv (Fin a) (Fin b)) (fdiv (Fin c) (Fin d)).
Proof.
  intros Hac Hbd. unfold fdiv.
  assert (Hz : Qeq_bool b 0 = Qeq_bool d 0).
  { destruct (Qeq_bool b 0) eqn:E1, (Qeq_bool d 0) eqn:E2; auto.
    - apply Qeq_bool_iff in E1. apply Qeq_bool_neq in E2.
      exfalso. apply E2. rewrite <- Hbd. exact E1.
    - apply Qeq_bool_iff in E2. apply Qeq_bool_neq in E1.
      exfalso. apply E1. rewrite Hbd. exact E2. }
  rewrite <- Hz. destruct (Qeq_bool b 0) eqn:E.
  - rewrite <- (Qcompare_comp a c Hac 0 0 (Qeq_refl 0)).
    destruct (a ?= 0); exact I.
  - simpl. rewrite Hac, Hbd. reflexivity.
Qed.

Lemma compute_equiv s s' :
  NLL.equiv s s' -> fp_eq (NLL.compute s) (NLL.compute s').
Proof. intros [Hm Hw]. now apply fdiv_equiv. Qed.

Lemma equiv_refl s : NLL.equiv s s.
Proof. split; reflexivity. Qed.

Lemma update_raise self value weight e :
  NLL.broadcast_to weight (length value) = Raise e ->
  NLL.update self value weight = Raise e.
Proof. intros H. unfold NLL.update. now rewrite H. Qed.

Lemma update_sums self value weight w :
  NLL.broadcast_to weight (length value) = Ok w ->
  exists s,
    NLL.update self value weight = Ok s /\
    NLL.mean_value s ==
      NLL.mean_value self + sum (map fst (surviving (value, weight))) /\
    NLL.weight s ==
      NLL.weight self + sum (map snd (surviving (value, weight))).
Proof.
  intros H. unfold NLL.update, surviving. simpl fst; simpl snd. rewrite H.
  simpl. unfold numel.
  destruct (flat_map NLL.paired_valid (combine value w)) as [|p kept]; simpl.
  - exists self. split; [reflexivity|]. split; ring.
  - eexists. repeat split; simpl; reflexivity.
Qed.

Lemma update_inv self value weight s :
  NLL.update self value weight = Ok s ->
  exists w, NLL.broadcast_to weight (length value) = Ok w.
Proof.
  unfold NLL.update.
  destruct (NLL.broadcast_to weight (length value)) as [w|e]; simpl.
  - intros _. now exists w.
  - discriminate.
Qed.

(** ** Sequences of [update] calls *)

Lemma updates_accepted calls : forall self s,
  NLL.updates self calls = Ok s -> Forall accepted calls.
Proof.
  induction calls as [|[v w] calls IH]; intros self s H.
  - constructor.
  - unfold NLL.updates in H. simpl in H.
    destruct (NLL.update self v w) as [s1|e] eqn:E; simpl in H; [|discriminate].
    constructor.
    + exact (update_inv _ _ _ E).
    + exact (IH _ _ H).
Qed.

Lemma updates_sums calls : forall self,
  Forall accepted calls ->
  exists s,
    NLL.updates self calls = Ok s /\
    NLL.mean_value s ==
      NLL.mean_value self + sum (map fst (all_surviving calls)) /\
    NLL.weight s ==
      NLL.weight self + sum (map snd (all_surviving calls)).
Proof.
  induction calls as [|[v w] calls IH]; intros self Hacc.
  - exists self. simpl. split; [reflexivity|]. split; ring.
  - inversion Hacc as [|c cs [w' Hw'] Hrest]; subst.
    destruct (update_sums self v w Hw') as (s1 & E1 & Hm1 & Hw1).
    destruct (IH s1 Hrest) as (s & E & Hm & Hw).
    exists s. unfold NLL.updates in *. simpl. rewrite E1. simpl.
    split; [exact E|].
    unfold all_surviving in *. simpl. rewrite !map_app, !sum_app.
    rewrite Hm, Hw, Hm1, Hw1. split; symmetry; apply Qplus_assoc.
Qed.

Lemma updates_perm_equiv calls calls' s s' :
  NLL.updates NLL.reset calls = Ok s ->
  NLL.updates NLL.reset calls' = Ok s' ->
  Permutation (all_surviving calls) (all_surviving calls') ->
  NLL.equiv s s'.
Proof.
  intros E E' HP.
  destruct (updates_sums NLL.reset (updates_accepted _ _ E)) as (t & Et & Hm & Hw).
  destruct (updates_sums NLL.reset (updates_accepted _ _ E')) as (t' & Et' & Hm' & Hw').
  rewrite E in Et; injection Et as <-. rewrite E' in Et'; injection Et' as <-.
  split.
  - rewrite Hm, Hm'. apply Qplus_comp; [reflexivity|].
    apply sum_perm. now apply Permutation_map.
  - rewrite Hw, Hw'. apply Qplus_comp; [reflexivity|].
    apply sum_perm. now apply Permutation_map.
Qed.

Lemma broadcast_same (w : tensor) n :
  length w = n -> NLL.broadcast_to w n = Ok w.
Proof.
  intros H. unfold NLL.broadcast_to.
  now rewrite (proj2 (Nat.eqb_eq _ _) H).
Qed.

Lemma broadcast_scalar (x : fp Q) n : NLL.broadcast_to [x] n = Ok (repeat x n).
Proof.
  unfold NLL.broadcast_to. destruct (Nat.eqb_spec (length [x]) n) as [E|E].
  - simpl in E. subst n. reflexivity.
  - reflexivity.
Qed.

Lemma surviving_same v w :
  length w = length v ->
  surviving (v, w) = flat_map NLL.paired_valid (combine v w).
Proof.
  intros H. unfold surviving. simpl fst; simpl snd.
  now rewrite (broadcast_same _ H).
Qed.

Lemma surviving_scalar v x :
  surviving (v, [x]) =
  flat_map NLL.paired_valid (combine v (repeat x (length v))).
Proof.
  unfold surviving. simpl fst; simpl snd. now rewrite broadcast_scalar.
Qed.

Lemma combine_app {A B : Type} (a1 a2 : list A) (b1 b2 : list B) :
  length b1 = length a1 ->
  combine (a1 ++ a2) (b1 ++ b2) = combine a1 b1 ++ combine a2 b2.
Proof.
  revert b1. induction a1 as [|a a1 IH]; intros [|b b1] H; simpl in *;
    try discriminate; auto.
  f_equal. apply IH. now injection H.
Qed.

Lemma surviving_concat v1 w1 v2 w2 :
  length w1 = length v1 -> length w2 = length v2 ->
  surviving (v1 ++ v2, w1 ++ w2) = surviving (v1, w1) ++ surviving (v2, w2).
Proof.
  intros H1 H2.
  rewrite !surviving_same by (rewrite ?length_app; congruence).
  rewrite combine_app by assumption. apply flat_map_app.
Qed.

Lemma surviving_concat_scalar v1 v2 x :
  surviving (v1 ++ v2, [x]) = surviving (v1, [x]) ++ surviving (v2, [x]).
Proof.
  rewrite !surviving_scalar, length_app, repeat_app.
  rewrite combine_app by apply repeat_length. apply flat_map_app.
Qed.

Lemma accepted_same v w : length w = length v -> accepted (v, w).
Proof. intros H. exists w. now apply broadcast_same. Qed.

Lemma accepted_scalar v x : accepted (v, [x]).
Proof. eexists. apply broadcast_scalar. Qed.

Lemma all_surviving_app xs ys :
  all_surviving (xs ++ ys) = all_surviving xs ++ all_surviving ys.
Proof. apply flat_map_app. Qed.

(** Replacing one call by two whose contributions concatenate to its own
    leaves the accumulated sums, hence [compute()], unchanged. *)
Lemma rebatch pre post c c1 c2 s :
  NLL.updates NLL.reset (pre ++ c :: post) = Ok s ->
  accepted c1 -> accepted c2 ->
  surviving c = surviving c1 ++ surviving c2 ->
  exists s',
    NLL.updates NLL.reset (pre ++ c1 :: c2 :: post) = Ok s' /\
    fp_eq (NLL.compute s') (NLL.compute s).
Proof.
  intros E A1 A2 Hsurv.
  pose proof (updates_accepted _ _ E) as Hacc.
  apply Forall_app in Hacc. destruct Hacc as [Hpre Hpost].
  inversion Hpost as [|? ? _ Hpost']; subst.
  assert (Hacc' : Forall accepted (pre ++ c1 :: c2 :: post)).
  { apply Forall_app. split; [assumption|]. repeat constructor; assumption. }
  destruct (updates_sums NLL.reset Hacc') as (s' & E' & _).
  exists s'. split; [exact E'|].
  apply compute_equiv. apply (updates_perm_equiv _ _ E' E).
  rewrite !all_surviving_app. unfold all_surviving at 2 4. simpl.
  rewrite Hsurv, <- app_assoc. apply Permutation_refl.
Qed.

(** ** The weighted mean (C1, C2) *)

(** C2.  Whatever was accumulated before, an [update] call whose weight
    broadcasts to its value returns, having added the sum of its surviving
    values to [mean_value] and the sum of its surviving weights to [weight],
    both over the same surviving index set, and [compute()] is the ratio of
    the two totals. *)
Theorem update_adds_both_sums :
  forall calls s value weight w,
    NLL.updates NLL.reset calls = Ok s ->
    NLL.broadcast_to weight (length value) = Ok w ->
    exists s',
      NLL.update s value weight = Ok s' /\
      NLL.mean_value s' ==
        NLL.mean_value s + sum (map fst (surviving (value, weight))) /\
      NLL.weight s' ==
        NLL.weight s + sum (map snd (surviving (value, weight))) /\
      fp_eq (NLL.compute s')
            (ratio_of_sums (all_surviving (calls ++ [(value, weight)]))).
Proof.
  intros calls s value weight w E Hw.
  destruct (update_sums s value weight Hw) as (s' & U & Hm & Hwt).
  exists s'. split; [exact U|]. split; [exact Hm|]. split; [exact Hwt|].
  assert (E' : NLL.updates NLL.reset (calls ++ [(value, weight)]) = Ok s').
  { unfold NLL.updates in *. rewrite for_each_app, E. simpl. now rewrite U. }
  destruct (updates_sums NLL.reset (updates_accepted _ _ E'))
    as (t & Et & Hm' & Hw').
  rewrite E' in Et. injection Et as <-.
  unfold NLL.compute, ratio_of_sums. apply fdiv_equiv.
  - rewrite Hm'. simpl. ring.
  - rewrite Hw'. simpl. ring.
Qed.

Lemma update_adds_both_sums_witness :
  exists s',
    NLL.update (NLL.mk 2 1) [Fin 4; NaN; Fin 2] [Fin 3; Fin 1; Fin 2] = Ok s' /\
    NLL.mean_value s' == 8 /\ NLL.weight s' == 6 /\
    fp_eq (NLL.compute s')
          (ratio_of_sums
             (all_surviving
                ([(scalar 2, scalar 1)]
                 ++ [([Fin 4; NaN; Fin 2], [Fin 3; Fin 1; Fin 2])]))).
Proof.
  destruct (@update_adds_both_sums [(scalar 2, scalar 1)] (NLL.mk 2 1)
              [Fin 4; NaN; Fin 2] [Fin 3; Fin 1; Fin 2] [Fin 3; Fin 1; Fin 2]
              eq_refl eq_refl)
    as (s' & U & Hm & Hw & Hc).
  exists s'. split; [exact U|].
  split; [rewrite Hm; reflexivity|].
  split; [rewrite Hw; reflexivity|].
  exact Hc.
Defined.

(** C1, as the code has it.  After any accepted sequence of [update] calls
    [compute()] is the sum of the surviving values divided by the sum of the
    surviving weights (the values are not multiplied by the weights); the
    result does not depend on the order of the calls, nor on splitting a call
    into two whose concatenation is the original; after [(2.0, 1)] and
    [(4.0, 3)] it is [(2 + 4) / (1 + 3) = 1.5].  A sequence is accepted as
    soon as every weight broadcasts to its value. *)
Theorem compute_is_ratio_of_sums :
  (forall calls,
      Forall accepted calls -> exists s, NLL.updates NLL.reset calls = Ok s) /\
  (forall calls s,
      NLL.updates NLL.reset calls = Ok s ->
      fp_eq (NLL.compute s) (ratio_of_sums (all_surviving calls)) /\
      (forall calls',
          Permutation calls calls' ->
          exists s', NLL.updates NLL.reset calls' = Ok s' /\
                     fp_eq (NLL.compute s') (NLL.compute s)) /\
      (forall pre post v1 w1 v2 w2,
          length w1 = length v1 -> length w2 = length v2 ->
          calls = pre ++ (v1 ++ v2, w1 ++ w2) :: post ->
          exists s',
            NLL.updates NLL.reset (pre ++ (v1, w1) :: (v2, w2) :: post) = Ok s' /\
            fp_eq (NLL.compute s') (NLL.compute s)) /\
      (forall pre post v1 v2 x,
          calls = pre ++ (v1 ++ v2, [x]) :: post ->
          exists s',
            NLL.updates NLL.reset (pre ++ (v1, [x]) :: (v2, [x]) :: post) = Ok s' /\
            fp_eq (NLL.compute s') (NLL.compute s))) /\
  (exists s,
      NLL.updates NLL.reset [(scalar 2, scalar 1); (scalar 4, scalar 3)] = Ok s /\
      fp_eq (NLL.compute s) (Fin (3 # 2))).
Proof.
  split; [|split].
  - intros calls Hacc.
    destruct (updates_sums NLL.reset Hacc) as (s & E & _). now exists s.
  - intros calls s E. repeat split.
    + destruct (updates_sums NLL.reset (updates_accepted _ _ E))
        as (t & Et & Hm & Hw).
      rewrite E in Et. injection Et as <-.
      unfold NLL.compute, ratio_of_sums. apply fdiv_equiv.
      * rewrite Hm. simpl. ring.
      * rewrite Hw. simpl. ring.
    + intros calls' HP.
      pose proof (Permutation_Forall HP (updates_accepted _ _ E)) as Hacc'.
      destruct (updates_sums NLL.reset Hacc') as (s' & E' & _).
      exists s'. split; [exact E'|].
      apply compute_equiv. apply (updates_perm_equiv _ _ E' E).
      apply Permutation_flat_map. now apply Permutation_sym.
    + intros pre post v1 w1 v2 w2 H1 H2 ->.
      apply (rebatch _ _ _ E).
      * now apply accepted_same.
      * now apply accepted_same.
      * now apply surviving_concat.
    + intros pre post v1 v2 x ->.
      apply (rebatch _ _ _ E).
      * apply accepted_scalar.
      * apply accepted_scalar.
      * apply surviving_concat_scalar.
  - eexists. split; reflexivity.
Qed.

Lemma compute_is_ratio_of_sums_witness :
  fp_eq (NLL.compute (NLL.mk 6 4))
        (ratio_of_sums
           (all_surviving [(scalar 2, scalar 1); (scalar 4, scalar 3)])).
Proof.
  apply (proj1 (proj2 compute_is_ratio_of_sums)
           [(scalar 2, scalar 1); (scalar 4, scalar 3)] (NLL.mk 6 4)).
  reflexivity.
Defined.

(** C1 as stated fails: on [(2.0, 1)], [(4.0, 3)] the code computes
    [6 / 4], not the weighted mean [14 / 4]. *)
Lemma weighted_mean_counterexample :
  exists s,
    NLL.updates NLL.reset [(scalar 2, scalar 1); (scalar 4, scalar 3)] = Ok s /\
    fp_eq (weighted_mean_spec
             (all_surviving [(scalar 2, scalar 1); (scalar 4, scalar 3)]))
          (Fin (7 # 2)) /\
    ~ fp_eq (NLL.compute s)
            (weighted_mean_spec
               (all_surviving [(scalar 2, scalar 1); (scalar 4, scalar 3)])).
Proof.
  eexists. split; [reflexivity|]. split.
  - reflexivity.
  - vm_compute. discriminate.
Qed.

(** ** Filtering and the empty payload (C6) *)

Lemma paired_valid_filter (ps : list (fp Q * fp Q)) :
  map (fun p => (Fin (fst p), Fin (snd p))) (flat_map NLL.paired_valid ps) =
  filter (fun p => isfinite (fst p) && isfinite (snd p)) ps.
Proof.
  induction ps as [|[[v| | |] [w| | |]] ps IH]; simpl; rewrite ?IH; reflexivity.
Qed.

(** C6.  When the weight broadcasts to the value's shape, [update] does not
    raise whatever non-finite entries the two tensors hold; the positions it
    accumulates are exactly those where the value and the weight are both
    finite, so a NaN value drops the weight at its position too; and when no
    position survives, in particular for an empty payload, the state is
    returned unchanged. *)
Theorem update_filters_paired :
  forall self value weight w,
    NLL.broadcast_to weight (length value) = Ok w ->
    exists s,
      NLL.update self value weight = Ok s /\
      map (fun p => (Fin (fst p), Fin (snd p))) (surviving (value, weight)) =
        filter (fun p => isfinite (fst p) && isfinite (snd p))
               (combine value w) /\
      NLL.mean_value s ==
        NLL.mean_value self + sum (map fst (surviving (value, weight))) /\
      NLL.weight s ==
        NLL.weight self + sum (map snd (surviving (value, weight))) /\
      (forall i, nth i value NaN = NaN ->
                 ~ In (nth i value NaN, nth i w NaN)
                      (map (fun p => (Fin (fst p), Fin (snd p)))
                           (surviving (value, weight)))) /\
      (surviving (value, weight) = [] -> s = self) /\
      (value = [] -> s = self).
Proof.
  intros self value weight w Hw.
  destruct (update_sums self value weight Hw) as (s & U & Hm & Hwt).
  exists s. split; [exact U|].
  assert (Hsurv : surviving (value, weight) =
                  flat_map NLL.paired_valid (combine value w)).
  { unfold surviving. simpl fst; simpl snd. now rewrite Hw. }
  assert (Hempty : surviving (value, weight) = [] -> s = self).
  { intros Hnil. unfold NLL.update in U. rewrite Hw in U. simpl in U.
    rewrite Hsurv in Hnil. rewrite Hnil in U. simpl in U. now injection U. }
  split; [rewrite Hsurv; apply paired_valid_filter|].
  split; [exact Hm|]. split; [exact Hwt|]. split; [|split].
  - intros i Hi Hin. rewrite Hi in Hin.
    apply in_map_iff in Hin. destruct Hin as (p & Hp & _). discriminate.
  - exact Hempty.
  - intros ->. apply Hempty. rewrite Hsurv. reflexivity.
Qed.

Lemma update_filters_paired_witness :
  exists s,
    NLL.update NLL.reset [Fin 1; NaN; Fin 3; PInf; Fin 5]
                         [Fin 1; Fin 1; NaN; Fin 2; Fin 2] = Ok s /\
    NLL.mean_value s == 6 /\ NLL.weight s == 3.
Proof.
  destruct (@update_filters_paired NLL.reset
              [Fin 1; NaN; Fin 3; PInf; Fin 5]
              [Fin 1; Fin 1; NaN; Fin 2; Fin 2]
              [Fin 1; Fin 1; NaN; Fin 2; Fin 2] eq_refl)
    as (s & U & _ & Hm & Hw & _).
  exists s. split; [exact U|]. split.
  - rewrite Hm. reflexivity.
  - rewrite Hw. reflexivity.
Defined.

(** ** Monotonicity (C9) *)

Lemma surviving_in v w q r :
  In (q, r) (flat_map NLL.paired_valid (combine v w)) ->
  In (Fin q) v /\ In (Fin r) w.
Proof.
  intros H. apply in_flat_map in H. destruct H as ([a b] & Hin & Hp).
  destruct a as [x| | |], b as [y| | |]; simpl in Hp; try contradiction.
  destruct Hp as [Hp|[]]. injection Hp as -> ->.
  split; [eapply in_combine_l|eapply in_combine_r]; exact Hin.
Qed.

Lemma broadcast_nonneg weight n w :
  NLL.broadcast_to weight n = Ok w -> nonneg weight -> nonneg w.
Proof.
  unfold NLL.broadcast_to. destruct (length weight =? n)%nat.
  - now intros [= ->].
  - destruct weight as [|x [|y rest]]; try discriminate.
    intros [= <-] H q Hq. apply repeat_spec in Hq. apply H. subst. now left.
Qed.

Lemma surviving_weights_nonneg value weight :
  nonneg weight -> 0 <= sum (map snd (surviving (value, weight))).
Proof.
  intros H. apply sum_nonneg. intros q Hq.
  apply in_map_iff in Hq. destruct Hq as ([a b] & <- & Hin).
  unfold surviving in Hin. simpl fst in Hin; simpl snd in Hin.
  destruct (NLL.broadcast_to weight (length value)) as [w|e] eqn:E;
    [|contradiction].
  apply surviving_in in Hin. apply (broadcast_nonneg _ E H). apply Hin.
Qed.

Lemma surviving_values_nonneg value weight :
  nonneg value -> 0 <= sum (map fst (surviving (value, weight))).
Proof.
  intros H. apply sum_nonneg. intros q Hq.
  apply in_map_iff in Hq. destruct Hq as ([a b] & <- & Hin).
  unfold surviving in Hin. simpl fst in Hin; simpl snd in Hin.
  destruct (NLL.broadcast_to weight (length value)) as [w|e] eqn:E;
    [|contradiction].
  apply surviving_in in Hin. apply H. apply Hin.
Qed.

Lemma Qle_plus_nonneg a b : 0 <= b -> a <= a + b.
Proof.
  intros H. rewrite <- (Qplus_0_r a) at 1.
  apply Qplus_le_compat; [apply Qle_refl|exact H].
Qed.

Lemma updates_weight_nonneg calls s :
  Forall (fun c => nonneg (snd c)) calls ->
  NLL.updates NLL.reset calls = Ok s ->
  0 <= NLL.weight s.
Proof.
  intros Hcalls E.
  destruct (updates_sums NLL.reset (updates_accepted _ _ E))
    as (t & Et & _ & Hwc).
  rewrite E in Et. injection Et as <-.
  rewrite Hwc. simpl. rewrite Qplus_0_l.
  apply sum_nonneg. intros q Hq.
  apply in_map_iff in Hq. destruct Hq as ([a b] & <- & Hin).
  unfold all_surviving in Hin. apply in_flat_map in Hin.
  destruct Hin as ([v0 w0] & Hc & Hin).
  rewrite Forall_forall in Hcalls. specialize (Hcalls _ Hc). simpl in Hcalls.
  unfold surviving in Hin. simpl fst in Hin; simpl snd in Hin.
  destruct (NLL.broadcast_to w0 (length v0)) as [w1|e] eqn:E1;
    [|contradiction].
  apply surviving_in in Hin. apply (broadcast_nonneg _ E1 Hcalls). apply Hin.
Qed.

(** C9, as the code has it.  Under non-negative weights the accumulated
    weight is non-negative after any sequence of updates since the last
    reset and never decreases across an update; the accumulated value sum
    never decreases across an update whose values are non-negative too.  The
    entropy accumulator behaves alike, and [Metrics.reset] puts every
    accumulator back to zero. *)
Theorem weight_monotone :
  (forall calls s value weight s',
      Forall (fun c => nonneg (snd c)) calls ->
      NLL.updates NLL.reset calls = Ok s ->
      nonneg weight ->
      NLL.update s value weight = Ok s' ->
      0 <= NLL.weight s /\
      NLL.weight s <= NLL.weight s' /\
      (nonneg value -> NLL.mean_value s <= NLL.mean_value s')) /\
  (forall m value,
      (MeanMetric.weight m <= MeanMetric.weight (MeanMetric.update m value))%R /\
      (forall x, value = Fin x -> (0 <= x)%R ->
         (MeanMetric.mean_value m
          <= MeanMetric.mean_value (MeanMetric.update m value))%R)) /\
  (forall self,
      let fresh := Metrics.reset self in
      Metrics.train_nlls fresh = Metrics.reset_collection /\
      Metrics.valid_nlls fresh = Metrics.reset_collection /\
      Metrics.train_recons fresh = NLL.reset /\
      Metrics.valid_recons fresh = NLL.reset /\
      Metrics.gen_ppl fresh = NLL.reset /\
      Metrics.sample_entropy fresh = MeanMetric.reset).
Proof.
  split; [|split].
  - intros calls s value weight s' Hcalls E Hnn U.
    destruct (update_inv _ _ _ U) as [w Hw].
    destruct (update_sums s value weight Hw) as (t & Ut & Hm & Hwt).
    rewrite U in Ut. injection Ut as <-.
    split; [|split].
    + exact (updates_weight_nonneg Hcalls E).
    + rewrite Hwt. apply Qle_plus_nonneg. now apply surviving_weights_nonneg.
    + intros Hv. rewrite Hm. apply Qle_plus_nonneg.
      now apply surviving_values_nonneg.
  - intros m value. split.
    + destruct value; simpl; lra.
    + intros x -> Hx. simpl. lra.
  - intros self. repeat split.
Qed.

Lemma nonneg_scalar q : 0 <= q -> nonneg (scalar q).
Proof. intros H r [Hr|[]]. now injection Hr as <-. Qed.

Lemma weight_monotone_witness :
  0 <= NLL.weight (NLL.mk 2 1) /\
  NLL.weight (NLL.mk 2 1) <= NLL.weight (NLL.mk 6 4) /\
  (nonneg (scalar 4) ->
   NLL.mean_value (NLL.mk 2 1) <= NLL.mean_value (NLL.mk 6 4)).
Proof.
  apply (proj1 weight_monotone [(scalar 2, scalar 1)] (NLL.mk 2 1)
           (scalar 4) (scalar 3) (NLL.mk 6 4)).
  - constructor; [|constructor]. apply nonneg_scalar. discriminate.
  - reflexivity.
  - apply nonneg_scalar. discriminate.
  - reflexivity.
Defined.

(** C9 as stated fails for the value sum: a negative value with a
    non-negative weight lowers [mean_value]. *)
Lemma value_sum_counterexample :
  nonneg (scalar 1) /\
  NLL.update NLL.reset (scalar (-1)) (scalar 1) = Ok (NLL.mk (-1) 1) /\
  ~ NLL.mean_value NLL.reset <= NLL.mean_value (NLL.mk (-1) 1).
Proof.
  split; [apply nonneg_scalar; discriminate|].
  split; [reflexivity|].
  simpl. intros H. apply H. reflexivity.
Qed.

(** ** Bits per dimension and perplexity (C7) *)

Lemma Q2R_eq0 q : Q2R q = 0%R <-> q == 0.
Proof.
  split; intros H.
  - apply eqR_Qeq. rewrite H. symmetry. apply RMicromega.Q2R_0.
  - rewrite (Qeq_eqR _ _ H). apply RMicromega.Q2R_0.
Qed.

Lemma Q2R_pos q : (0 < Q2R q)%R <-> 0 < q.
Proof.
  rewrite <- RMicromega.Q2R_0. split; [apply Rlt_Qlt|apply Qlt_Rlt].
Qed.

(** The rational division of [NLL.compute], read in [R], is the real
    division [BPD] and [Perplexity] start from. *)
Lemma toR_fdiv a b :
  toR (fdiv (Fin a) (Fin b)) = Rfdiv (Fin (Q2R a)) (Fin (Q2R b)).
Proof.
  unfold fdiv, Rfdiv.
  destruct (Qeq_bool b 0) eqn:Eb.
  - apply Qeq_bool_iff in Eb.
    destruct (Req_dec_T (Q2R b) 0) as [_|Hn];
      [|exfalso; apply Hn; now apply Q2R_eq0].
    destruct (Qcompare_spec a 0) as [Ha|Ha|Ha]; simpl.
    + destruct (Req_dec_T (Q2R a) 0) as [_|Hn]; [reflexivity|].
      exfalso. apply Hn. now apply Q2R_eq0.
    + assert (Q2R a < 0)%R
        by (rewrite <- RMicromega.Q2R_0; now apply Qlt_Rlt).
      destruct (Req_dec_T (Q2R a) 0); [lra|].
      destruct (Rlt_dec 0 (Q2R a)); [lra|reflexivity].
    + assert (0 < Q2R a)%R by now apply Q2R_pos.
      destruct (Req_dec_T (Q2R a) 0); [lra|].
      destruct (Rlt_dec 0 (Q2R a)); [reflexivity|lra].
  - apply Qeq_bool_neq in Eb.
    destruct (Req_dec_T (Q2R b) 0) as [Hz|_].
    + exfalso. apply Eb. now apply Q2R_eq0.
    + simpl. f_equal. unfold Qdiv, Rdiv.
      rewrite Q2R_mult, Q2R_inv by exact Eb. reflexivity.
Qed.

Lemma LOG2_pos : (0 < LOG2)%R.
Proof.
  unfold LOG2. rewrite <- ln_1. apply ln_increasing; lra.
Qed.

(** C7.  On a non-zero accumulated weight, write [m] for the mean NLL, the
    real quotient of the two running sums.  [NLL.compute()] is [m],
    [BPD.compute()] is [m / ln 2] and [Perplexity.compute()] is [exp m], all
    three read from the same accumulated state; when [m] is 0 the bits per
    dimension are exactly 0 and the perplexity exactly 1. *)
Theorem bpd_ppl_from_mean_nll :
  forall self : NLL.t,
    ~ NLL.weight self == 0 ->
    let m := (Q2R (NLL.mean_value self) / Q2R (NLL.weight self))%R in
    NLL.compute self = Fin (NLL.mean_value self / NLL.weight self) /\
    Q2R (NLL.mean_value self / NLL.weight self) = m /\
    BPD.compute self = Fin (m / ln 2)%R /\
    Perplexity.compute self = Fin (exp m) /\
    (m = 0%R ->
     BPD.compute self = Fin 0%R /\ Perplexity.compute self = Fin 1%R).
Proof.
  intros self Hw m.
  assert (HwR : Q2R (NLL.weight self) <> 0%R)
    by (intros Hz; apply Hw; now apply Q2R_eq0).
  assert (Hinner : Rfdiv (Fin (Q2R (NLL.mean_value self)))
                         (Fin (Q2R (NLL.weight self))) = Fin m).
  { unfold Rfdiv. destruct (Req_dec_T (Q2R (NLL.weight self)) 0) as [Hz|_];
      [contradiction|reflexivity]. }
  assert (HB : BPD.compute self = Fin (m / ln 2)%R).
  { unfold BPD.compute. rewrite Hinner. unfold Rfdiv.
    pose proof LOG2_pos as Hl.
    destruct (Req_dec_T LOG2 0) as [Hz|_]; [lra|reflexivity]. }
  assert (HP : Perplexity.compute self = Fin (exp m)).
  { unfold Perplexity.compute. rewrite Hinner. reflexivity. }
  split; [|split; [|split; [exact HB|split; [exact HP|]]]].
  - unfold NLL.compute, fdiv. destruct (Qeq_bool (NLL.weight self) 0) eqn:E;
      [|reflexivity].
    apply Qeq_bool_iff in E. contradiction.
  - unfold m, Qdiv, Rdiv. rewrite Q2R_mult, Q2R_inv by exact Hw. reflexivity.
  - intros Hm. rewrite HB, HP, Hm. split.
    + f_equal. unfold Rdiv. apply Rmult_0_l.
    + f_equal. apply exp_0.
Qed.

Lemma bpd_ppl_from_mean_nll_witness :
  BPD.compute (NLL.mk 6 4) = Fin (1.5 / ln 2)%R /\
  Perplexity.compute (NLL.mk 6 4) = Fin (exp 1.5) /\
  BPD.compute (NLL.mk 0 5) = Fin 0%R /\
  Perplexity.compute (NLL.mk 0 5) = Fin 1%R.
Proof.
  assert (E : (Q2R 6 / Q2R 4 = 1.5)%R) by (unfold Q2R; simpl; lra).
  destruct (bpd_ppl_from_mean_nll (NLL.mk 6 4)) as (_ & _ & HB & HP & _);
    [discriminate|].
  simpl in HB, HP. rewrite E in HB, HP.
  destruct (bpd_ppl_from_mean_nll (NLL.mk 0 5)) as (_ & _ & _ & _ & H0);
    [discriminate|].
  destruct H0 as [HB0 HP0]; [simpl; unfold Q2R; simpl; lra|].
  repeat split; assumption.
Defined.

(** ** Sample entropy (C8) *)

Lemma count_occ_cons_sum (a : Z) (l ds : list Z) :
  list_sum (map (count_occ Z.eq_dec (a :: l)) ds) =
  (count_occ Z.eq_dec ds a + list_sum (map (count_occ Z.eq_dec l) ds))%nat.
Proof.
  induction ds as [|d ds IH]; simpl in *.
  - reflexivity.
  - rewrite IH. destruct (Z.eq_dec a d), (Z.eq_dec d a); try congruence; lia.
Qed.

Lemma count_occ_total (l ds : list Z) :
  NoDup ds -> incl l ds ->
  list_sum (map (count_occ Z.eq_dec l) ds) = length l.
Proof.
  intros Hnd. induction l as [|a l IH]; intros Hincl.
  - clear. induction ds as [|d ds IH]; simpl; auto.
  - rewrite count_occ_cons_sum.
    rewrite (proj1 (NoDup_count_occ' Z.eq_dec ds) Hnd a)
      by (apply Hincl; now left).
    rewrite IH by (intros x Hx; apply Hincl; now right). reflexivity.
Qed.

Lemma unique_counts_total (sample : list Z) :
  fold_right Z.add 0%Z (unique_counts sample) = Z.of_nat (length sample).
Proof.
  unfold unique_counts.
  rewrite <- (count_occ_total (l := sample) (NoDup_nodup Z.eq_dec sample))
    by (intros x Hx; now apply nodup_In).
  induction (nodup Z.eq_dec sample) as [|d ds IH]; simpl.
  - reflexivity.
  - rewrite IH. lia.
Qed.

Lemma Rfsum_finite {A : Type} (g : A -> fp R) (f : A -> R) (l : list A) :
  (forall x, In x l -> g x = Fin (f x)) ->
  Rfsum (map g l) = Fin (fold_right Rplus 0%R (map f l)).
Proof.
  induction l as [|x l IH]; intros H.
  - reflexivity.
  - cbn [map]. unfold Rfsum in *. cbn [fold_right].
    rewrite IH by (intros y Hy; apply H; now right).
    rewrite (H x) by now left. reflexivity.
Qed.

Lemma fold_opp {A : Type} (f : A -> R) (l : list A) :
  fold_right Rplus 0%R (map (fun x => (- f x)%R) l) =
  (- fold_right Rplus 0 (map f l))%R.
Proof. induction l as [|x l IH]; simpl; [lra|rewrite IH; lra]. Qed.

Lemma empirical_pos sample v : In v sample -> (0 < empirical sample v)%R.
Proof.
  intros Hin. unfold empirical.
  assert (0 < count_occ Z.eq_dec sample v)%nat
    by now apply (count_occ_In Z.eq_dec).
  assert (0 < length sample)%nat by (destruct sample; [contradiction|simpl; lia]).
  apply Rdiv_lt_0_compat; apply lt_0_INR; assumption.
Qed.

(** What the code computes for a sample is the Shannon entropy of its
    empirical token distribution. *)
Lemma sample_entropy_shannon sample :
  sample_entropy_of sample = Fin (shannon_entropy sample).
Proof.
  unfold sample_entropy_of, shannon_entropy.
  rewrite unique_counts_total. unfold unique_counts. rewrite map_map.
  rewrite <- fold_opp. apply Rfsum_finite. intros v Hv.
  apply nodup_In in Hv. rewrite <- !INR_IZR_INZ.
  pose proof (empirical_pos _ _ Hv) as Hp. unfold empirical in *.
  unfold entr, plogp.
  destruct (Rlt_dec 0 _) as [_|Hn]; [|contradiction].
  destruct (Req_dec_T _ 0) as [Hz|_]; [lra|].
  f_equal. ring.
Qed.

Lemma fold_const {A : Type} (c : R) (l : list A) :
  fold_right Rplus 0%R (map (fun _ => c) l) = (INR (length l) * c)%R.
Proof.
  induction l as [|x l IH].
  - simpl. lra.
  - cbn [map fold_right]. rewrite IH. cbn [length]. rewrite S_INR. lra.
Qed.

Lemma fold_ext_in {A : Type} (f g : A -> R) (l : list A) :
  (forall x, In x l -> f x = g x) ->
  fold_right Rplus 0%R (map f l) = fold_right Rplus 0%R (map g l).
Proof. intros H. f_equal. now apply map_ext_in. Qed.

(** [k] distinct tokens, each occurring [m] times: entropy [ln k]. *)
Lemma shannon_uniform sample k m :
  length (nodup Z.eq_dec sample) = k -> (0 < k)%nat ->
  (forall v, In v sample -> count_occ Z.eq_dec sample v = m) ->
  shannon_entropy sample = ln (INR k).
Proof.
  intros Hk Hpos Hm.
  assert (Hlen : length sample = (k * m)%nat).
  { rewrite <- (count_occ_total (l := sample) (NoDup_nodup Z.eq_dec sample))
      by (intros x Hx; now apply nodup_In).
    rewrite (map_ext_in _ (fun _ => m))
      by (intros v Hv; apply Hm; now apply nodup_In in Hv).
    rewrite <- Hk. clear.
    induction (nodup Z.eq_dec sample) as [|d ds IH]; simpl; auto. }
  assert (Hne : exists v, In v sample).
  { destruct sample as [|v sample]; [simpl in Hk; lia|]. exists v. now left. }
  destruct Hne as [v0 Hv0].
  assert (Hm0 : (0 < m)%nat).
  { rewrite <- (Hm v0 Hv0). now apply (count_occ_In Z.eq_dec). }
  assert (HkR : (0 < INR k)%R) by now apply lt_0_INR.
  assert (HmR : (0 < INR m)%R) by now apply lt_0_INR.
  unfold shannon_entropy.
  rewrite (fold_ext_in _ (fun _ => (/ INR k * ln (/ INR k))%R)).
  - rewrite fold_const, Hk, ln_Rinv by exact HkR. field. lra.
  - intros v Hv. apply nodup_In in Hv. unfold plogp, empirical.
    rewrite (Hm v Hv), Hlen, mult_INR.
    replace (INR m / (INR k * INR m))%R with (/ INR k)%R by (field; lra).
    destruct (Req_dec_T (/ INR k) 0) as [Hz|_]; [|reflexivity].
    pose proof (Rinv_0_lt_compat _ HkR). lra.
Qed.

Lemma count_occ_all_same (sample : list Z) v :
  (forall x, In x sample -> x = v) ->
  count_occ Z.eq_dec sample v = length sample.
Proof.
  induction sample as [|a l IH]; intros H; simpl.
  - reflexivity.
  - rewrite (H a) by now left. destruct (Z.eq_dec v v); [|congruence].
    rewrite IH by (intros x Hx; apply H; now right). reflexivity.
Qed.

Lemma nodup_all_same (sample : list Z) v :
  (forall x, In x sample -> x = v) -> (length (nodup Z.eq_dec sample) <= 1)%nat.
Proof.
  intros H.
  pose proof (NoDup_nodup Z.eq_dec sample) as Hnd.
  assert (Hall : forall x, In x (nodup Z.eq_dec sample) -> x = v)
    by (intros x Hx; apply H; now apply nodup_In in Hx).
  destruct (nodup Z.eq_dec sample) as [|a [|b rest]]; simpl; try lia.
  exfalso. inversion Hnd as [|? ? Hnotin _]; subst. apply Hnotin.
  rewrite (Hall a) by now left. rewrite <- (Hall b) by (right; now left).
  now left.
Qed.

Lemma record_entropy_fields tokens : forall self,
  let self' := Metrics.record_entropy self tokens in
  MeanMetric.weight (Metrics.sample_entropy self') =
    (MeanMetric.weight (Metrics.sample_entropy self) + INR (length tokens))%R /\
  MeanMetric.mean_value (Metrics.sample_entropy self') =
    (MeanMetric.mean_value (Metrics.sample_entropy self)
     + fold_right Rplus 0 (map shannon_entropy tokens))%R /\
  Metrics.gen_ppl self' = Metrics.gen_ppl self.
Proof.
  induction tokens as [|sample tokens IH]; intros self.
  - simpl. repeat split; lra.
  - cbn zeta in *. unfold Metrics.record_entropy in *. cbn [fold_left].
    destruct (IH (Metrics.set_sample_entropy self
                    (MeanMetric.update (Metrics.sample_entropy self)
                                       (sample_entropy_of sample))))
      as (Hw & Hm & Hg).
    rewrite Hw, Hm, Hg. rewrite sample_entropy_shannon.
    cbn [map fold_right length]. rewrite S_INR. simpl.
    repeat split; lra.
Qed.

(** C8.  [record_entropy] performs one unweighted update per sample (the
    count grows by the number of samples, the sum by their entropies, and no
    other accumulator moves); the value recorded for a sample is the Shannon
    entropy, in nats, of the empirical distribution of its distinct tokens;
    it is 0 for a sample of identical tokens and [ln k] for [k] distinct
    tokens occurring equally often. *)
Theorem record_entropy_shannon :
  (forall self tokens,
      let self' := Metrics.record_entropy self tokens in
      MeanMetric.weight (Metrics.sample_entropy self') =
        (MeanMetric.weight (Metrics.sample_entropy self)
         + INR (length tokens))%R /\
      MeanMetric.mean_value (Metrics.sample_entropy self') =
        (MeanMetric.mean_value (Metrics.sample_entropy self)
         + fold_right Rplus 0 (map shannon_entropy tokens))%R /\
      Metrics.gen_ppl self' = Metrics.gen_ppl self) /\
  (forall sample, sample_entropy_of sample = Fin (shannon_entropy sample)) /\
  (forall sample v,
      (forall x, In x sample -> x = v) ->
      sample_entropy_of sample = Fin 0%R) /\
  (forall sample k m,
      length (nodup Z.eq_dec sample) = k -> (0 < k)%nat ->
      (forall v, In v sample -> count_occ Z.eq_dec sample v = m) ->
      sample_entropy_of sample = Fin (ln (INR k))).
Proof.
  split; [intros self tokens; apply record_entropy_fields|].
  split; [exact sample_entropy_shannon|]. split.
  - intros sample v Hall. rewrite sample_entropy_shannon. f_equal.
    destruct sample as [|a rest] eqn:Hs.
    + unfold shannon_entropy. simpl. lra.
    + rewrite <- Hs in *.
      assert (Hk : length (nodup Z.eq_dec sample) = 1%nat).
      { pose proof (nodup_all_same sample Hall) as Hle.
        assert (In a (nodup Z.eq_dec sample))
          by (apply nodup_In; rewrite Hs; now left).
        destruct (nodup Z.eq_dec sample); [contradiction|simpl in *; lia]. }
      rewrite (@shannon_uniform sample 1 (length sample) Hk); [|lia|].
      * simpl. apply ln_1.
      * intros x Hx. rewrite (Hall x Hx). now apply count_occ_all_same.
  - intros sample k m Hk Hpos Hm. rewrite sample_entropy_shannon. f_equal.
    now apply (@shannon_uniform sample k m).
Qed.

Lemma record_entropy_shannon_witness :
  sample_entropy_of [7; 7; 7]%Z = Fin 0%R /\
  sample_entropy_of [1; 2; 1; 2]%Z = Fin (ln (INR 2)).
Proof.
  split.
  - apply (proj1 (proj2 (proj2 record_entropy_shannon)) [7; 7; 7]%Z 7%Z).
    intros x [<-|[<-|[<-|[]]]]; reflexivity.
  - apply (proj2 (proj2 (proj2 record_entropy_shannon)) [1; 2; 1; 2]%Z 2%nat 2%nat).
    + reflexivity.
    + lia.
    + intros v [<-|[<-|[<-|[<-|[]]]]]; reflexivity.
Defined.

(** ** The validity mask (C3, C10) *)

Lemma cumsum_from_count eos row : forall acc t,
  (t < length row)%nat ->
  nth t (cumsum_from acc (map (fun tok => b2z (tok =? eos)%Z) row)) 0%Z =
  (acc + Z.of_nat (count_occ Z.eq_dec (firstn (S t) row) eos))%Z.
Proof.
  induction row as [|a row IH]; intros acc t Ht; simpl in Ht; [lia|].
  cbn [map cumsum_from]. destruct t as [|t].
  - cbn [nth firstn count_occ].
    destruct (Z.eq_dec a eos) as [->|Hne].
    + rewrite Z.eqb_refl. reflexivity.
    + rewrite (proj2 (Z.eqb_neq a eos) Hne). reflexivity.
  - cbn [nth]. rewrite IH by lia.
    change (firstn (S (S t)) (a :: row)) with (a :: firstn (S t) row).
    cbn [count_occ].
    destruct (Z.eq_dec a eos) as [->|Hne].
    + rewrite Z.eqb_refl. simpl b2z. lia.
    + rewrite (proj2 (Z.eqb_neq a eos) Hne). simpl b2z. lia.
Qed.

Lemma first_eos_nth eos row t :
  (t < length row)%nat ->
  nth t (first_eos eos row) false =
  (count_occ Z.eq_dec (firstn (S t) row) eos =? 1)%nat.
Proof.
  intros Ht. unfold first_eos, cumsum.
  change false with ((fun c => (c =? 1)%Z) 0%Z). rewrite map_nth.
  rewrite cumsum_from_count by exact Ht.
  destruct (Nat.eqb_spec (count_occ Z.eq_dec (firstn (S t) row) eos) 1);
    [apply Z.eqb_eq|apply Z.eqb_neq]; lia.
Qed.

Lemma token_mask_nth eos row t :
  (t < length row)%nat ->
  nth t (token_mask eos row) false = negb (nth t row eos =? eos)%Z.
Proof.
  intros Ht. unfold token_mask.
  rewrite (nth_indep _ false (negb (eos =? eos)%Z))
    by (rewrite length_map; exact Ht).
  apply (map_nth (fun tok => negb (tok =? eos)%Z)).
Qed.

Lemma length_cumsum_from row : forall acc,
  length (cumsum_from acc row) = length row.
Proof. induction row as [|a row IH]; intros acc; simpl; auto. Qed.

Lemma length_first_eos eos row : length (first_eos eos row) = length row.
Proof.
  unfold first_eos, cumsum. now rewrite length_map, length_cumsum_from, length_map.
Qed.

Lemma length_token_mask eos row : length (token_mask eos row) = length row.
Proof. unfold token_mask. apply length_map. Qed.

Lemma bool_add_nth xs : forall ys t,
  length xs = length ys ->
  nth t (bool_add xs ys) false = nth t xs false || nth t ys false.
Proof.
  induction xs as [|x xs IH]; intros [|y ys] t H; simpl in H; try discriminate.
  - now destruct t.
  - destruct t; simpl; [reflexivity|]. apply IH. now injection H.
Qed.

Lemma length_bool_add xs : forall ys,
  length xs = length ys -> length (bool_add xs ys) = length xs.
Proof.
  induction xs as [|x xs IH]; intros [|y ys] H; simpl in *; try discriminate;
    auto.
Qed.

Lemma valid_tokens_tl eos row :
  valid_tokens eos row = tl (validity_mask eos row).
Proof.
  unfold valid_tokens, validity_mask, first_eos, token_mask, cumsum.
  destruct row as [|a row]; reflexivity.
Qed.

Lemma length_valid_tokens eos row :
  length (valid_tokens eos row) = (length row - 1)%nat.
Proof.
  unfold valid_tokens. rewrite length_bool_add.
  - destruct (first_eos eos row) eqn:E; simpl.
    + rewrite <- (length_first_eos eos row), E. reflexivity.
    + rewrite <- (length_first_eos eos row), E. simpl. lia.
  - pose proof (length_first_eos eos row). pose proof (length_token_mask eos row).
    destruct (first_eos eos row), (token_mask eos row); simpl in *; lia.
Qed.

Lemma validity_mask_nth eos row t :
  (t < length row)%nat ->
  nth t (validity_mask eos row) false =
  (count_occ Z.eq_dec (firstn (S t) row) eos =? 1)%nat
  || negb (nth t row eos =? eos)%Z.
Proof.
  intros Ht. unfold validity_mask.
  rewrite bool_add_nth by (now rewrite length_first_eos, length_token_mask).
  now rewrite first_eos_nth, token_mask_nth.
Qed.

(** C3.  Position [t] of a chunk row is valid exactly when the number of
    end-of-sequence tokens up to and including [t] is 1 or the token at [t]
    is not the end-of-sequence token; the mask handed to the accumulator is
    that mask from position 1 on; on [[A, B, EOS, EOS, EOS]] it keeps [B]
    and the first [EOS] and rejects the two trailing [EOS]. *)
Theorem valid_tokens_spec :
  forall eos row,
    (forall t, (t < length row)%nat ->
       nth t (validity_mask eos row) false = true <->
       (count_occ Z.eq_dec (firstn (S t) row) eos = 1%nat \/
        nth t row eos <> eos)) /\
    valid_tokens eos row = tl (validity_mask eos row) /\
    (forall A B, A <> eos -> B <> eos ->
       valid_tokens eos [A; B; eos; eos; eos] = [true; true; false; false]).
Proof.
  intros eos row. split; [|split].
  - intros t Ht. rewrite validity_mask_nth by exact Ht.
    rewrite orb_true_iff, Nat.eqb_eq, negb_true_iff, Z.eqb_neq. reflexivity.
  - apply valid_tokens_tl.
  - intros A B HA HB. unfold valid_tokens, first_eos, token_mask, cumsum.
    cbn [map cumsum_from].
    rewrite (proj2 (Z.eqb_neq A eos) HA), (proj2 (Z.eqb_neq B eos) HB).
    rewrite Z.eqb_refl. reflexivity.
Qed.

Lemma valid_tokens_spec_witness :
  nth 2 (validity_mask 0 [5; 6; 0; 0; 0]%Z) false = true /\
  valid_tokens 0 [5; 6; 0; 0; 0]%Z = [true; true; false; false].
Proof.
  split.
  - apply (proj1 (valid_tokens_spec 0 [5; 6; 0; 0; 0]%Z) 2%nat).
    + simpl. lia.
    + left. reflexivity.
  - apply (proj2 (proj2 (valid_tokens_spec 0 [5; 6; 0; 0; 0]%Z)) 5%Z 6%Z);
      discriminate.
Defined.

(** ** The generative-perplexity loop (C4, C5, C10) *)

Lemma natQ_add a b : natQ (a + b) == natQ a + natQ b.
Proof. unfold natQ. now rewrite Nat2Z.inj_add, inject_Z_plus. Qed.

Lemma natQ_eq a b : a = b -> natQ a == natQ b.
Proof. now intros ->. Qed.

Lemma count_true_app xs ys :
  count_true (xs ++ ys) = (count_true xs + count_true ys)%nat.
Proof. unfold count_true. now rewrite filter_app, length_app. Qed.

Lemma count_true_concat (ms : list (list bool)) :
  count_true (concat ms) = list_sum (map count_true ms).
Proof.
  induction ms as [|m ms IH]; simpl; [reflexivity|].
  now rewrite count_true_app, IH.
Qed.

Lemma masked_weight_sum (xs : list Q) : forall ys : list bool,
  length xs = length ys ->
  sum (map snd (surviving (map (@Fin Q) xs, map (fun b => Fin (b2q b)) ys)))
  == natQ (count_true ys).
Proof.
  intros ys H.
  rewrite surviving_same by (now rewrite !length_map).
  revert ys H. induction xs as [|x xs IH]; intros [|y ys] H; simpl in H;
    try discriminate.
  - reflexivity.
  - cbn [map combine flat_map NLL.paired_valid app sum fold_right snd].
    fold (sum (map snd (flat_map NLL.paired_valid
                          (combine (map (@Fin Q) xs)
                                   (map (fun b => Fin (b2q b)) ys))))).
    rewrite IH by (now injection H).
    destruct y; unfold count_true; cbn [filter length b2q].
    + change (S (length (filter (fun b => b) ys)))
        with (1 + count_true ys)%nat.
      rewrite natQ_add. reflexivity.
    + fold (count_true ys). ring.
Qed.

Lemma length_mul_mask xs : forall m,
  length xs = length m -> length (mul_mask xs m) = length m.
Proof.
  induction xs as [|x xs IH]; intros [|b m] H; simpl in *; try discriminate;
    auto.
Qed.

Section ChunkLoop.

Variable eval_nll : tokens2 -> tokens2 -> nat -> nat -> Q.

(** The masked losses and the mask of a chunk have the same shape. *)
Lemma masked_shape eos (f : nat -> nat -> Q) (rows : tokens2) : forall s,
  length (concat (map (fun p => mul_mask (fst p) (snd p))
            (combine
               (map (fun ir => map (f (fst ir)) (seq 0 (length (snd ir) - 1)))
                    (combine (seq s (length rows)) rows))
               (map (valid_tokens eos) rows)))) =
  length (concat (map (valid_tokens eos) rows)).
Proof.
  induction rows as [|row rows IH]; intros s; [reflexivity|].
  cbn [length seq combine map concat fst snd]. rewrite !length_app, IH.
  f_equal. apply length_mul_mask.
  now rewrite length_map, length_seq, length_valid_tokens.
Qed.

Lemma score_chunk_weight self sample_chunk attn_mask_chunk :
  exists self',
    Metrics.score_chunk eval_nll self (sample_chunk, attn_mask_chunk) = Ok self' /\
    same_config self self' /\
    NLL.weight (Metrics.gen_ppl self') ==
      NLL.weight (Metrics.gen_ppl self)
      + natQ (list_sum (map (fun row =>
                               count_true (valid_tokens (Metrics.eos_token_id self) row))
                            sample_chunk)).
Proof.
  unfold Metrics.score_chunk, Metrics.cross_entropy.
  set (value := map (@Fin Q) _). set (weight := map (fun b => Fin (b2q b)) _).
  assert (Hlen : length weight = length value).
  { unfold value, weight. rewrite !length_map. symmetry. apply masked_shape. }
  destruct (update_sums (Metrics.gen_ppl self) value weight
              (broadcast_same _ Hlen)) as (g & U & _ & Hw).
  rewrite U. simpl. eexists. split; [reflexivity|]. split.
  - repeat split.
  - simpl. rewrite Hw. apply Qplus_comp; [reflexivity|].
    unfold value, weight. rewrite masked_weight_sum.
    + now rewrite count_true_concat, map_map.
    + apply masked_shape.
Qed.

End ChunkLoop.

Lemma same_config_refl a : same_config a a.
Proof. repeat split. Qed.

Lemma same_config_trans a b c :
  same_config a b -> same_config b c -> same_config a c.
Proof. unfold same_config. intros (?&?&?) (?&?&?). repeat split; congruence. Qed.

(** A loop whose every iteration adds a known count to the weight of
    [gen_ppl] adds the sum of the counts. *)
Lemma for_each_weight {A : Type} (body : Metrics.t -> A -> result Metrics.t)
    (delta : A -> nat) (self0 : Metrics.t) (xs : list A) :
  (forall s x, In x xs -> same_config self0 s ->
     exists s', body s x = Ok s' /\ same_config s s' /\
       NLL.weight (Metrics.gen_ppl s') ==
       NLL.weight (Metrics.gen_ppl s) + natQ (delta x)) ->
  forall s, same_config self0 s ->
    exists s', for_each body xs s = Ok s' /\ same_config s s' /\
      NLL.weight (Metrics.gen_ppl s') ==
      NLL.weight (Metrics.gen_ppl s) + natQ (list_sum (map delta xs)).
Proof.
  induction xs as [|x xs IH]; intros Hbody s Hs.
  - exists s. split; [reflexivity|]. split; [apply same_config_refl|].
    simpl. unfold natQ. simpl. ring.
  - destruct (Hbody s x (or_introl eq_refl) Hs) as (s1 & E1 & C1 & W1).
    destruct (IH (fun s x H => Hbody s x (or_intror H)) s1
                 (same_config_trans Hs C1)) as (s2 & E2 & C2 & W2).
    exists s2. simpl. rewrite E1. simpl. split; [exact E2|].
    split; [exact (same_config_trans C1 C2)|].
    rewrite W2, W1. cbn [map list_sum]. rewrite natQ_add. ring.
Qed.

Lemma list_sum_swap {A B : Type} (f : A -> B -> nat) (xs : list A) (ys : list B) :
  list_sum (map (fun x => list_sum (map (f x) ys)) xs) =
  list_sum (map (fun y => list_sum (map (fun x => f x y) xs)) ys).
Proof.
  induction xs as [|x xs IH]; simpl.
  - induction ys; simpl; auto.
  - rewrite IH. clear IH. induction ys as [|y ys IH]; simpl; [reflexivity|].
    rewrite <- IH. lia.
Qed.

Lemma combine_map_same {A B C : Type} (f : A -> B) (g : A -> C) (l : list A) :
  combine (map f l) (map g l) = map (fun x => (f x, g x)) l.
Proof. induction l as [|x l IH]; simpl; [reflexivity|now rewrite IH]. Qed.

Lemma ncols_hd (t : tokens2) : ncols t = hd 0%nat (map (@length Z) t).
Proof. destruct t; reflexivity. Qed.

Lemma slice_map_length (lo hi : nat) (a b : tokens2) :
  map (@length Z) a = map (@length Z) b ->
  map (@length Z) (slice lo hi a) = map (@length Z) (slice lo hi b).
Proof.
  intros H. unfold slice. rewrite <- !firstn_map, <- !skipn_map. now rewrite H.
Qed.

Lemma in_slice {A : Type} (lo hi : nat) (l : list A) x :
  In x (slice lo hi l) -> In x l.
Proof.
  unfold slice. intros H.
  rewrite <- (firstn_skipn lo l). apply in_or_app. right.
  rewrite <- (firstn_skipn (hi - lo) (skipn lo l)). apply in_or_app. now left.
Qed.

Lemma rectangular_slice L lo hi t :
  rectangular L t -> rectangular L (slice lo hi t).
Proof.
  unfold rectangular, slice. intros H. apply Forall_forall. intros r Hr.
  apply in_slice in Hr. rewrite Forall_forall in H. now apply H.
Qed.

Lemma total_valid_app eos k a b :
  total_valid eos k (a ++ b) = (total_valid eos k a + total_valid eos k b)%nat.
Proof. unfold total_valid. now rewrite map_app, list_sum_app. Qed.

Section BatchLoop.

Variable eval_nll : tokens2 -> tokens2 -> nat -> nat -> Q.

(** One group: every chunk of every row is counted once. *)
Lemma score_batch_weight samples attn_mask k b L self i :
  (0 < k)%nat ->
  rectangular L samples ->
  map (@length Z) attn_mask = map (@length Z) samples ->
  exists self',
    Metrics.score_batch eval_nll samples attn_mask k b self i = Ok self' /\
    same_config self self' /\
    NLL.weight (Metrics.gen_ppl self') ==
      NLL.weight (Metrics.gen_ppl self)
      + natQ (total_valid (Metrics.eos_token_id self) k
                (slice (i * b) ((i + 1) * b) samples)).
Proof.
  intros Hk Hrect Hshape. unfold Metrics.score_batch.
  set (group := slice (i * b) ((i + 1) * b) samples).
  set (agroup := slice (i * b) ((i + 1) * b) attn_mask).
  assert (Hcols : ncols agroup = ncols group).
  { rewrite !ncols_hd. unfold agroup, group.
    now rewrite (slice_map_length _ _ _ _ Hshape). }
  unfold split. rewrite Hcols.
  destruct (Nat.eqb_spec k 0) as [->|_]; [lia|]. simpl bind.
  rewrite combine_map_same.
  set (n := Nat.max 1 ((ncols group + k - 1) / k)).
  destruct (@for_each_weight _ (Metrics.score_chunk eval_nll)
              (fun c => list_sum (map (fun row =>
                 count_true (valid_tokens (Metrics.eos_token_id self) row))
                 (fst c)))
              self
              (map (fun j => (map (slice (j * k) ((j + 1) * k)) group,
                              map (slice (j * k) ((j + 1) * k)) agroup))
                   (seq 0 n)))
    with (s := self) as (self' & E & C & W).
  - intros s [c a] _ Hs.
    destruct (score_chunk_weight eval_nll s c a) as (s' & E & C & W).
    exists s'. split; [exact E|]. split; [exact C|].
    destruct Hs as (Heos & _). rewrite Heos in W. exact W.
  - apply same_config_refl.
  - exists self'. split; [exact E|]. split; [exact C|].
    rewrite W. apply Qplus_comp; [reflexivity|]. apply natQ_eq.
    rewrite map_map. cbn [fst]. unfold total_valid.
    assert (Hg : rectangular L group) by now apply rectangular_slice.
    replace (list_sum (map (valid_positions (Metrics.eos_token_id self) k) group))
      with (list_sum (map (fun row => list_sum (map (fun j =>
               count_true (valid_tokens (Metrics.eos_token_id self)
                             (slice (j * k) ((j + 1) * k) row))) (seq 0 n)))
             group)).
    + rewrite <- list_sum_swap. f_equal. apply map_ext. intros j.
      now rewrite map_map.
    + f_equal. apply map_ext_in. intros row Hrow.
      unfold valid_positions, row_chunks. rewrite map_map.
      assert (HL : ncols group = length row).
      { unfold rectangular in Hg. rewrite Forall_forall in Hg.
        rewrite (Hg row Hrow). destruct group as [|r0 rest]; [contradiction|].
        simpl. apply Hg. now left. }
      unfold n. now rewrite HL.
Qed.

End BatchLoop.

Lemma firstn_add {A : Type} (n m : nat) : forall l : list A,
  firstn (n + m) l = firstn n l ++ firstn m (skipn n l).
Proof.
  induction n as [|n IH]; intros [|x l]; simpl; try reflexivity.
  - now rewrite firstn_nil.
  - now rewrite IH.
Qed.

Lemma slice_step {A : Type} (b i : nat) (l : list A) :
  firstn (S i * b) l = firstn (i * b) l ++ slice (i * b) ((i + 1) * b) l.
Proof.
  unfold slice. replace (S i * b)%nat with (i * b + b)%nat by lia.
  replace ((i + 1) * b - i * b)%nat with b by lia. apply firstn_add.
Qed.

Lemma groups_total eos k b (l : tokens2) (n : nat) :
  list_sum (map (fun i => total_valid eos k (slice (i * b) ((i + 1) * b) l))
                (seq 0 n)) =
  total_valid eos k (firstn (n * b) l).
Proof.
  induction n as [|n IH].
  - reflexivity.
  - rewrite seq_S, map_app, list_sum_app, IH. cbn [map list_sum Nat.add].
    rewrite slice_step, total_valid_app. simpl list_sum. lia.
Qed.




Lemma batch_size_pos self samples :
  (0 < Metrics.eval_ppl_batch_size self)%Z -> samples <> [] ->
  (0 < batch_size_of self samples <= Z.of_nat (length samples))%Z.
Proof.
  intros Hb Hs. unfold batch_size_of.
  assert (0 < length samples)%nat by (destruct samples; [congruence|simpl; lia]).
  lia.
Qed.

Lemma num_batches_pos self samples :
  (0 < Metrics.eval_ppl_batch_size self)%Z -> samples <> [] ->
  (1 <= num_batches_of self samples)%Z /\
  (num_batches_of self samples * batch_size_of self samples
   <= Z.of_nat (length samples))%Z.
Proof.
  intros Hb Hs. pose proof (batch_size_pos self Hb Hs) as Hbs.
  unfold num_batches_of. split.
  - apply Z.div_le_lower_bound; lia.
  - rewrite Z.mul_comm. apply Z.mul_div_le. lia.
Qed.

Lemma score_samples_unfold eval_nll self samples attn_mask ctx :
  batch_size_of self samples <> 0%Z ->
  Metrics.score_samples eval_nll self samples attn_mask ctx =
  for_each (Metrics.score_batch eval_nll samples attn_mask ctx
              (Z.to_nat (batch_size_of self samples)))
           (seq 0 (Z.to_nat (num_batches_of self samples))) self.
Proof.
  intros H. unfold Metrics.score_samples.
  fold (batch_size_of self samples).
  now rewrite (proj2 (Z.eqb_neq _ _) H).
Qed.


Section SampleLoop.

Variable eval_nll : tokens2 -> tokens2 -> nat -> nat -> Q.

Lemma score_samples_weight self samples attn_mask ctx L :
  (0 < Metrics.eval_ppl_batch_size self)%Z -> samples <> [] ->
  (0 < ctx)%nat -> rectangular L samples ->
  map (@length Z) attn_mask = map (@length Z) samples ->
  exists self',
    Metrics.score_samples eval_nll self samples attn_mask ctx = Ok self' /\
    same_config self self' /\
    NLL.weight (Metrics.gen_ppl self') ==
      NLL.weight (Metrics.gen_ppl self)
      + natQ (total_valid (Metrics.eos_token_id self) ctx (scored self samples)).
Proof.
  intros Hb Hs Hctx Hrect Hshape.
  pose proof (batch_size_pos self Hb Hs) as Hbs.
  rewrite score_samples_unfold by lia.
  destruct (@for_each_weight _
              (Metrics.score_batch eval_nll samples attn_mask ctx
                 (Z.to_nat (batch_size_of self samples)))
              (fun i => total_valid (Metrics.eos_token_id self) ctx
                          (slice (i * Z.to_nat (batch_size_of self samples))
                                 ((i + 1) * Z.to_nat (batch_size_of self samples))
                                 samples))
              self (seq 0 (Z.to_nat (num_batches_of self samples))))
    with (s := self) as (self' & E & C & W).
  - intros s i _ Hcfg.
    destruct (@score_batch_weight eval_nll samples attn_mask ctx
                (Z.to_nat (batch_size_of self samples)) L s i Hctx Hrect Hshape)
      as (s' & E & C & W).
    exists s'. split; [exact E|]. split; [exact C|].
    destruct Hcfg as (Heos & _). rewrite Heos in W. exact W.
  - apply same_config_refl.
  - exists self'. split; [exact E|]. split; [exact C|].
    rewrite W. apply Qplus_comp; [reflexivity|]. apply natQ_eq.
    apply groups_total.
Qed.


End SampleLoop.




(** C4 as stated fails: for five retokenized samples whose padding (id 99)
    is not the end-of-sequence token, under a batch size of 2, the weight
    grows by 12, the three shifted positions of each of the first four
    samples, padding included, while those samples have only 9 valid
    non-padding positions. *)
Lemma padding_is_counted_counterexample :
  exists self',
    Metrics.record_generative_perplexity
      (fun _ _ => (padded_batch_ids, padded_batch_mask))
      (fun _ _ _ _ => 1) (Metrics.init "reference-model" 2 0)
      (Metrics.Text ["a b"; "a b c d"; "a b c"; "a b c d"; "a"]%string)
      4 true = Ok self' /\
    NLL.weight (Metrics.gen_ppl self') == 12 /\
    list_sum (map (fun p => non_padding_valid 0 (fst p) (snd p))
                  (firstn 4 (combine padded_batch_ids padded_batch_mask)))
      = 9%nat /\
    ~ NLL.weight (Metrics.gen_ppl self') ==
      NLL.weight (Metrics.gen_ppl (Metrics.init "reference-model" 2 0))
      + natQ (list_sum
                (map (fun p => non_padding_valid 0 (fst p) (snd p))
                     (firstn 4 (combine padded_batch_ids padded_batch_mask)))).
Proof.
  eexists. split; [vm_compute; reflexivity|].
  split; [reflexivity|]. split; [reflexivity|].
  vm_compute. discriminate.
Qed.

Lemma bind_ok_id {A : Type} (r : result A) : (x <- r ;; Ok x) = r.
Proof. now destruct r. Qed.

(** C5, as the code has it.  For a non-empty input and a positive configured
    batch size at least one full group is always formed; when the input is
    smaller than the configured batch size the effective batch size is the
    input size, so the whole input is scored as one group and nothing is
    dropped. *)
Theorem small_input_is_one_group :
  forall eval_nll self samples attn_mask ctx,
    (0 < Metrics.eval_ppl_batch_size self)%Z -> samples <> [] ->
    (1 <= num_batches_of self samples)%Z /\
    ((Z.of_nat (length samples) < Metrics.eval_ppl_batch_size self)%Z ->
     batch_size_of self samples = Z.of_nat (length samples) /\
     num_batches_of self samples = 1%Z /\
     scored self samples = samples /\
     Metrics.score_samples eval_nll self samples attn_mask ctx =
       Metrics.score_batch eval_nll samples attn_mask ctx (length samples)
                           self 0).
Proof.
  intros eval_nll self samples attn_mask ctx Hb Hs.
  pose proof (batch_size_pos self Hb Hs) as Hbs.
  split; [now apply num_batches_pos|].
  intros Hlt.
  assert (Hbn : batch_size_of self samples = Z.of_nat (length samples))
    by (unfold batch_size_of; lia).
  assert (Hn : num_batches_of self samples = 1%Z).
  { unfold num_batches_of. rewrite Hbn. apply Z.div_same. lia. }
  split; [exact Hbn|]. split; [exact Hn|]. split.
  - unfold scored. rewrite Hn, Hbn, Nat2Z.id.
    change (Z.to_nat 1) with 1%nat. rewrite Nat.mul_1_l. apply firstn_all.
  - rewrite score_samples_unfold by lia.
    rewrite Hn, Hbn, Nat2Z.id. change (Z.to_nat 1) with 1%nat.
    cbn [seq for_each]. apply bind_ok_id.
Qed.

Lemma small_input_is_one_group_witness :
  num_batches_of (Metrics.init "gpt2-large" 2 0) [[5; 6]]%Z = 1%Z /\
  scored (Metrics.init "gpt2-large" 2 0) [[5; 6]]%Z = [[5; 6]]%Z.
Proof.
  destruct (@small_input_is_one_group (fun _ _ _ _ => 1)
              (Metrics.init "gpt2-large" 2 0) [[5; 6]]%Z [[1; 1]]%Z 2%nat)
    as (_ & H).
  - reflexivity.
  - discriminate.
  - destruct H as (_ & Hn & Hs & _); [reflexivity|]. split; assumption.
Defined.

(** C5 as stated fails: one sample under a configured batch size of 2 is
    scored and moves [gen_ppl]; an input without samples, the only one that
    forms no group, raises [ZeroDivisionError]. *)
Lemma small_input_counterexample :
  (Z.of_nat (length [[5; 6]]%Z)
   < Metrics.eval_ppl_batch_size (Metrics.init "gpt2-large" 2 0))%Z /\
  (exists self',
     Metrics.record_generative_perplexity (fun _ _ => ([], []))
       (fun _ _ _ _ => 1) (Metrics.init "gpt2-large" 2 0)
       (Metrics.Tokens [[5; 6]]%Z) 2 false = Ok self' /\
     NLL.weight (Metrics.gen_ppl self') == 1 /\
     ~ NLL.equiv (Metrics.gen_ppl self')
                 (Metrics.gen_ppl (Metrics.init "gpt2-large" 2 0))) /\
  Metrics.record_generative_perplexity (fun _ _ => ([], []))
    (fun _ _ _ _ => 1) (Metrics.init "gpt2-large" 2 0)
    (Metrics.Tokens []) 2 false = Raise ZeroDivisionError.
Proof.
  split; [reflexivity|]. split; [|reflexivity].
  eexists. split; [reflexivity|]. split; [reflexivity|].
  intros [_ H]. simpl in H. discriminate H.
Qed.

(** ** Chunks are masked on their own (C10) *)

Lemma first_eos_count eos row : forall t,
  (t < length row)%nat ->
  nth t row eos = eos ->
  (forall u, (u < t)%nat -> nth u row eos <> eos) ->
  count_occ Z.eq_dec (firstn (S t) row) eos = 1%nat.
Proof.
  induction row as [|a row IH]; intros t Ht Heq Hbefore; simpl in Ht; [lia|].
  change (firstn (S t) (a :: row)) with (a :: firstn t row).
  destruct t as [|t].
  - simpl in Heq. subst a. simpl. now destruct (Z.eq_dec eos eos).
  - assert (Ha : a <> eos) by (apply (Hbefore 0%nat); lia).
    rewrite count_occ_cons_neq by exact Ha.
    apply IH; [lia|exact Heq|].
    intros u Hu. apply (Hbefore (S u)). lia.
Qed.





(** * Further properties *)

(** ** The accumulator under a scalar weight *)

Lemma sum_scale (w : Q) (n : nat) : sum (repeat w n) == natQ n * w.
Proof.
  induction n as [|n IH].
  - unfold natQ. simpl. ring.
  - change (S n) with (1 + n)%nat at 2. rewrite natQ_add.
    simpl. rewrite IH. unfold natQ at 2. simpl. ring.
Qed.

Lemma surviving_scalar_finite (value : list (fp Q)) w :
  map fst (surviving (value, scalar w)) = finite_values value /\
  map snd (surviving (value, scalar w)) =
    repeat w (length (finite_values value)).
Proof.
  unfold scalar. rewrite surviving_scalar.
  induction value as [|e value [IHv IHw]].
  - split; reflexivity.
  - cbn [length repeat combine flat_map NLL.paired_valid finite_values].
    fold (finite_values value).
    destruct e as [v| | |]; cbn [app map fst snd length repeat];
      rewrite ?IHv, ?IHw; split; reflexivity.
Qed.

Lemma natQ_pos n : (0 < n)%nat -> 0 < natQ n.
Proof.
  intros H. unfold natQ. change 0 with (inject_Z 0).
  rewrite <- Zlt_Qlt. lia.
Qed.

Lemma fdiv_finite a b : ~ b == 0 -> fdiv (Fin a) (Fin b) = Fin (a / b).
Proof.
  intros H. unfold fdiv. destruct (Qeq_bool b 0) eqn:E; [|reflexivity].
  apply Qeq_bool_iff in E. contradiction.
Qed.

(** X1.  A scalar weight is counted once for every finite value entry: the
    call adds the sum of the finite values to [mean_value] and their number
    times the weight to [weight], and never raises.  With the default weight
    1.0 on a fresh accumulator, [compute()] is the arithmetic mean of the
    values. *)
Theorem scalar_weight_counts_entries :
  (forall self value w,
      exists s,
        NLL.update self value (scalar w) = Ok s /\
        NLL.mean_value s == NLL.mean_value self + sum (finite_values value) /\
        NLL.weight s ==
          NLL.weight self + natQ (length (finite_values value)) * w) /\
  (forall vs,
      vs <> [] ->
      exists s,
        NLL.update NLL.reset (map (@Fin Q) vs) (scalar 1) = Ok s /\
        fp_eq (NLL.compute s) (Fin (sum vs / natQ (length vs)))).
Proof.
  assert (H1 : forall self value w,
      exists s,
        NLL.update self value (scalar w) = Ok s /\
        NLL.mean_value s == NLL.mean_value self + sum (finite_values value) /\
        NLL.weight s ==
          NLL.weight self + natQ (length (finite_values value)) * w).
  { intros self value w.
    destruct (update_sums self value (scalar w) (broadcast_scalar _ _))
      as (s & U & Hm & Hw).
    exists s. split; [exact U|].
    destruct (surviving_scalar_finite value w) as [Ev Ew].
    rewrite Ev in Hm. rewrite Ew in Hw.
    rewrite Hm, Hw, sum_scale. split; reflexivity. }
  split; [exact H1|].
  intros vs Hne.
  destruct (H1 NLL.reset (map (@Fin Q) vs) 1) as (s & U & Hm & Hw).
  exists s. split; [exact U|].
  assert (Hfin : finite_values (map (@Fin Q) vs) = vs).
  { clear. unfold finite_values.
    induction vs as [|v vs IH]; simpl; [reflexivity|]. now rewrite IH. }
  rewrite Hfin in Hm, Hw. simpl in Hm, Hw.
  assert (Hpos : 0 < natQ (length vs)).
  { apply natQ_pos. destruct vs; [congruence|simpl; lia]. }
  unfold NLL.compute.
  assert (Hw' : NLL.weight s == natQ (length vs)) by (rewrite Hw; ring).
  assert (Hm' : NLL.mean_value s == sum vs) by (rewrite Hm; ring).
  rewrite fdiv_finite.
  - simpl. rewrite Hm', Hw'. reflexivity.
  - rewrite Hw'. intros Hz. rewrite Hz in Hpos. now apply Qlt_irrefl in Hpos.
Qed.

Lemma scalar_weight_counts_entries_witness :
  exists s,
    NLL.update NLL.reset (map (@Fin Q) [1; 2; 6]) (scalar 1) = Ok s /\
    fp_eq (NLL.compute s) (Fin (sum [1; 2; 6] / natQ (length [1; 2; 6]))).
Proof.
  apply (proj2 scalar_weight_counts_entries [1; 2; 6]). discriminate.
Defined.

(** ** The read-outs of an accumulator *)

Lemma bpd_of_compute self :
  BPD.compute self = Rfdiv (toR (NLL.compute self)) (Fin LOG2).
Proof. unfold BPD.compute, NLL.compute. now rewrite toR_fdiv. Qed.

Lemma ppl_of_compute self :
  Perplexity.compute self = Rfexp (toR (NLL.compute self)).
Proof. unfold Perplexity.compute, NLL.compute. now rewrite toR_fdiv. Qed.









(** ** Training and validation updates *)







(** X6.  Training and validation never mix: [update_train] leaves the
    validation accumulators, [gen_ppl] and the entropy accumulator as they
    are, [update_valid] leaves the training ones, and the two calls can be
    made in either order with the same final state. *)
Theorem train_and_valid_are_separate :
  forall self a b c d e f s1 s2,
    Metrics.update_train self a b c = Ok s1 ->
    Metrics.update_valid s1 d e f = Ok s2 ->
    (Metrics.valid_nlls s1 = Metrics.valid_nlls self /\
     Metrics.valid_recons s1 = Metrics.valid_recons self /\
     Metrics.gen_ppl s1 = Metrics.gen_ppl self /\
     Metrics.sample_entropy s1 = Metrics.sample_entropy self) /\
    (Metrics.train_nlls s2 = Metrics.train_nlls s1 /\
     Metrics.train_recons s2 = Metrics.train_recons s1 /\
     Metrics.gen_ppl s2 = Metrics.gen_ppl s1 /\
     Metrics.sample_entropy s2 = Metrics.sample_entropy s1) /\
    exists s1',
      Metrics.update_valid self d e f = Ok s1' /\
      Metrics.update_train s1' a b c = Ok s2.
Proof.
  intros self a b c d e f s1 s2 Ht Hv.
  unfold Metrics.update_train in Ht.
  destruct (Metrics.update_collection (Metrics.train_nlls self) a c)
    as [tc|] eqn:Etc; simpl in Ht; [|discriminate].
  destruct (NLL.update (Metrics.train_recons self) b c)
    as [tr|] eqn:Etr; simpl in Ht; [|discriminate].
  injection Ht as <-.
  unfold Metrics.update_valid in Hv. simpl in Hv.
  destruct (Metrics.update_collection (Metrics.valid_nlls self) d f)
    as [vc|] eqn:Evc; simpl in Hv; [|discriminate].
  destruct (NLL.update (Metrics.valid_recons self) e f)
    as [vr|] eqn:Evr; simpl in Hv; [|discriminate].
  injection Hv as <-. simpl.
  split; [repeat split|]. split; [repeat split|].
  eexists. unfold Metrics.update_valid, Metrics.update_train.
  rewrite Evc, Evr. simpl. split; [reflexivity|].
  cbn [Metrics.train_nlls Metrics.train_recons].
  rewrite Etc, Etr. reflexivity.
Qed.

Lemma train_and_valid_are_separate_witness :
  exists s1' s2,
    Metrics.update_valid (Metrics.init "gpt2-large" 2 0)
      (scalar 7) (scalar 1) (scalar 2) = Ok s1' /\
    Metrics.update_train s1' (scalar 9) (scalar 3) (scalar 4) = Ok s2.
Proof.
  edestruct (@train_and_valid_are_separate (Metrics.init "gpt2-large" 2 0)
               (scalar 9) (scalar 3) (scalar 4)
               (scalar 7) (scalar 1) (scalar 2))
    as (_ & _ & s1' & Hv & Ht).
  - reflexivity.
  - reflexivity.
  - exists s1'. eexists. split; [exact Hv|exact Ht].
Defined.

(** ** What the recorders leave alone *)

Lemma for_each_preserves {A S : Type} (R : S -> S -> Prop)
    (body : S -> A -> result S) (xs : list A) :
  (forall s, R s s) ->
  (forall a b c, R a b -> R b c -> R a c) ->
  (forall s x s', In x xs -> body s x = Ok s' -> R s s') ->
  forall s s', for_each body xs s = Ok s' -> R s s'.
Proof.
  intros Hrefl Htrans. induction xs as [|x xs IH]; intros Hbody s s' E.
  - simpl in E. injection E as <-. apply Hrefl.
  - simpl in E. destruct (body s x) as [s1|] eqn:E1; simpl in E; [|discriminate].
    apply Htrans with s1.
    + apply (Hbody s x s1); [now left|exact E1].
    + apply IH; [|exact E]. intros t y t' Hy. apply Hbody. now right.
Qed.

Lemma same_but_gen_ppl_refl a : same_but_gen_ppl a a.
Proof. unfold same_but_gen_ppl. now destruct a. Qed.

Lemma same_but_gen_ppl_trans a b c :
  same_but_gen_ppl a b -> same_but_gen_ppl b c -> same_but_gen_ppl a c.
Proof.
  unfold same_but_gen_ppl, Metrics.set_gen_ppl.
  destruct a, b, c; simpl. intros H1 H2.
  injection H1 as <- <- <- <- <- <- <- <-.
  injection H2 as <- <- <- <- <- <- <- <-. reflexivity.
Qed.

Lemma same_but_gen_ppl_set self g :
  same_but_gen_ppl self (Metrics.set_gen_ppl self g).
Proof. unfold same_but_gen_ppl. now destruct self. Qed.

Section Frame.

Variable tokenizer : list string -> Z -> tokens2 * tokens2.
Variable eval_nll : tokens2 -> tokens2 -> nat -> nat -> Q.

Lemma score_chunk_frame self chunk self' :
  Metrics.score_chunk eval_nll self chunk = Ok self' ->
  same_but_gen_ppl self self'.
Proof.
  destruct chunk as [c a]. unfold Metrics.score_chunk.
  destruct (NLL.update _ _ _) as [g|]; simpl; [|discriminate].
  intros [= <-]. apply same_but_gen_ppl_set.
Qed.

Lemma score_batch_frame samples attn_mask k b self i self' :
  Metrics.score_batch eval_nll samples attn_mask k b self i = Ok self' ->
  same_but_gen_ppl self self'.
Proof.
  unfold Metrics.score_batch.
  destruct (split (slice (i * b) ((i + 1) * b) samples) k) as [cs|]; simpl;
    [|discriminate].
  destruct (split (slice (i * b) ((i + 1) * b) attn_mask) k) as [ms|]; simpl;
    [|discriminate].
  apply for_each_preserves.
  - apply same_but_gen_ppl_refl.
  - apply same_but_gen_ppl_trans.
  - intros s x s' _. apply score_chunk_frame.
Qed.

Lemma score_samples_frame self samples attn_mask ctx self' :
  Metrics.score_samples eval_nll self samples attn_mask ctx = Ok self' ->
  same_but_gen_ppl self self'.
Proof.
  unfold Metrics.score_samples.
  destruct (Z.min _ _ =? 0)%Z; [discriminate|].
  apply for_each_preserves.
  - apply same_but_gen_ppl_refl.
  - apply same_but_gen_ppl_trans.
  - intros s x s' _. apply score_batch_frame.
Qed.

Lemma record_frame self text_samples max_length retokenize self' :
  Metrics.record_generative_perplexity tokenizer eval_nll self text_samples
    max_length retokenize = Ok self' ->
  same_but_gen_ppl self self'.
Proof.
  unfold Metrics.record_generative_perplexity.
  destruct (Metrics.prepare _ _ _ _ _) as [[[samples attn_mask] ctx]|]; simpl;
    [|discriminate].
  apply score_samples_frame.
Qed.

End Frame.

Lemma record_entropy_closed tokens : forall self,
  Metrics.record_entropy self tokens =
  Metrics.set_sample_entropy self
    (MeanMetric.mk
       (MeanMetric.mean_value (Metrics.sample_entropy self)
        + fold_right Rplus 0%R (map shannon_entropy tokens))%R
       (MeanMetric.weight (Metrics.sample_entropy self)
        + INR (length tokens))%R).
Proof.
  induction tokens as [|sample tokens IH]; intros self.
  - unfold Metrics.record_entropy. simpl.
    rewrite !Rplus_0_r. now destruct self as [? ? ? ? ? [? ?] ? ? ?].
  - unfold Metrics.record_entropy in *. cbn [fold_left]. rewrite IH.
    rewrite sample_entropy_shannon.
    cbn [map fold_right length]. rewrite S_INR.
    destruct self as [? ? ? ? ? [m w] ? ? ?]. simpl.
    unfold Metrics.set_sample_entropy. simpl. f_equal. f_equal; lra.
Qed.

(** X7.  Each recorder moves its own accumulator only: a call of
    [record_generative_perplexity] that returns has changed nothing but
    [gen_ppl], and [record_entropy] changes nothing but [sample_entropy]. *)
Theorem recorders_touch_their_own_accumulator :
  (forall tokenizer eval_nll self text_samples max_length retokenize self',
      Metrics.record_generative_perplexity tokenizer eval_nll self
        text_samples max_length retokenize = Ok self' ->
      Metrics.train_nlls self' = Metrics.train_nlls self /\
      Metrics.train_recons self' = Metrics.train_recons self /\
      Metrics.valid_nlls self' = Metrics.valid_nlls self /\
      Metrics.valid_recons self' = Metrics.valid_recons self /\
      Metrics.sample_entropy self' = Metrics.sample_entropy self /\
      Metrics.eval_ppl_batch_size self' = Metrics.eval_ppl_batch_size self /\
      Metrics.gen_ppl_eval_model_name_or_path self' =
        Metrics.gen_ppl_eval_model_name_or_path self /\
      Metrics.eos_token_id self' = Metrics.eos_token_id self) /\
  (forall self tokens,
      let self' := Metrics.record_entropy self tokens in
      Metrics.train_nlls self' = Metrics.train_nlls self /\
      Metrics.train_recons self' = Metrics.train_recons self /\
      Metrics.valid_nlls self' = Metrics.valid_nlls self /\
      Metrics.valid_recons self' = Metrics.valid_recons self /\
      Metrics.gen_ppl self' = Metrics.gen_ppl self /\
      Metrics.eval_ppl_batch_size self' = Metrics.eval_ppl_batch_size self /\
      Metrics.gen_ppl_eval_model_name_or_path self' =
        Metrics.gen_ppl_eval_model_name_or_path self /\
      Metrics.eos_token_id self' = Metrics.eos_token_id self).
Proof.
  split.
  - intros tokenizer eval_nll self text_samples max_length retokenize self' E.
    apply record_frame in E. unfold same_but_gen_ppl in E.
    rewrite <- E. now destruct self'.
  - intros self tokens self'. unfold self'. rewrite record_entropy_closed.
    now destruct self.
Qed.

Lemma recorders_touch_their_own_accumulator_witness :
  exists self',
    Metrics.record_generative_perplexity (fun _ _ => ([], []))
      (fun _ _ _ _ => 1) (Metrics.init "gpt2-large" 2 0)
      (Metrics.Tokens [[5; 6; 0]; [5; 0; 0]]%Z) 3 false = Ok self' /\
    Metrics.sample_entropy self' = MeanMetric.reset /\
    Metrics.train_nlls self' = Metrics.reset_collection.
Proof.
  destruct (Metrics.record_generative_perplexity (fun _ _ => ([], []))
              (fun _ _ _ _ => 1) (Metrics.init "gpt2-large" 2 0)
              (Metrics.Tokens [[5; 6; 0]; [5; 0; 0]]%Z) 3 false)
    as [self'|e] eqn:E.
  - exists self'. split; [reflexivity|].
    destruct (proj1 recorders_touch_their_own_accumulator _ _ _ _ _ _ _ E)
      as (H1 & _ & _ & _ & H5 & _).
    split; [exact H5|exact H1].
  - vm_compute in E. discriminate E.
Defined.

(** ** The members of a collection *)

Lemma update_collection_in_sync c value weight c' :
  in_sync c -> Metrics.update_collection c value weight = Ok c' -> in_sync c'.
Proof.
  unfold in_sync, Metrics.update_collection. intros [Hb Hp]. rewrite Hb, Hp.
  destruct (NLL.update (Metrics.nll c) value weight) as [a|]; simpl;
    [|discriminate].
  intros [= <-]. split; reflexivity.
Qed.

(** X8.  The [nll], [bpd] and [ppl] members of the training and of the
    validation collection hold the same two sums at all times: this holds
    after construction and after [reset], and every update and recorder
    keeps it.  The reported bits per dimension and perplexity of a
    collection are therefore the transforms of its reported mean NLL. *)
Theorem collections_stay_in_sync :
  (forall name batch_size eos, synced (Metrics.init name batch_size eos)) /\
  (forall self, synced (Metrics.reset self)) /\
  (forall self nll recons_loss num_tokens s,
      synced self ->
      Metrics.update_train self nll recons_loss num_tokens = Ok s -> synced s) /\
  (forall self nll recons_loss num_tokens s,
      synced self ->
      Metrics.update_valid self nll recons_loss num_tokens = Ok s -> synced s) /\
  (forall self tokens, synced self -> synced (Metrics.record_entropy self tokens)) /\
  (forall tokenizer eval_nll self text_samples max_length retokenize s,
      synced self ->
      Metrics.record_generative_perplexity tokenizer eval_nll self
        text_samples max_length retokenize = Ok s ->
      synced s) /\
  (forall self,
      synced self ->
      let report c :=
        BPD.compute (Metrics.bpd c) =
          Rfdiv (toR (NLL.compute (Metrics.nll c))) (Fin LOG2) /\
        Perplexity.compute (Metrics.ppl c) =
          Rfexp (toR (NLL.compute (Metrics.nll c))) in
      report (Metrics.train_nlls self) /\ report (Metrics.valid_nlls self)).
Proof.
  split; [|split; [|split; [|split; [|split; [|split]]]]].
  - intros. repeat split.
  - intros. repeat split.
  - intros self nll recons_loss num_tokens s [Ht Hv] E.
    unfold Metrics.update_train in E.
    destruct (Metrics.update_collection (Metrics.train_nlls self) nll num_tokens)
      as [c|] eqn:Ec; simpl in E; [|discriminate].
    destruct (NLL.update (Metrics.train_recons self) recons_loss num_tokens)
      as [r|]; simpl in E; [|discriminate].
    injection E as <-. split; simpl; [|exact Hv].
    exact (update_collection_in_sync _ _ Ht Ec).
  - intros self nll recons_loss num_tokens s [Ht Hv] E.
    unfold Metrics.update_valid in E.
    destruct (Metrics.update_collection (Metrics.valid_nlls self) nll num_tokens)
      as [c|] eqn:Ec; simpl in E; [|discriminate].
    destruct (NLL.update (Metrics.valid_recons self) recons_loss num_tokens)
      as [r|]; simpl in E; [|discriminate].
    injection E as <-. split; simpl; [exact Ht|].
    exact (update_collection_in_sync _ _ Hv Ec).
  - intros self tokens H. rewrite record_entropy_closed.
    unfold synced in *. now destruct self.
  - intros tokenizer eval_nll self text_samples max_length retokenize s H E.
    apply record_frame in E. unfold same_but_gen_ppl in E.
    rewrite <- E in H. unfold synced in *. now destruct s.
  - intros self [[Htb Htp] [Hvb Hvp]] report. unfold report.
    rewrite Htb, Htp, Hvb, Hvp, !bpd_of_compute, !ppl_of_compute.
    repeat split.
Qed.

Lemma collections_stay_in_sync_witness :
  exists s,
    Metrics.update_train (Metrics.init "gpt2-large" 2 0)
      (scalar 9) (scalar 3) (scalar 4) = Ok s /\ synced s.
Proof.
  destruct (Metrics.update_train (Metrics.init "gpt2-large" 2 0)
              (scalar 9) (scalar 3) (scalar 4)) as [s|e] eqn:E.
  - exists s. split; [reflexivity|].
    apply (proj1 (proj2 (proj2 collections_stay_in_sync))
             (Metrics.init "gpt2-large" 2 0) (scalar 9) (scalar 3) (scalar 4) s);
      [|exact E].
    apply (proj1 collections_stay_in_sync).
  - vm_compute in E. discriminate E.
Defined.

(** ** Bounds and symmetries of the sample entropy *)

Lemma ln_le_minus_1 x : (0 < x)%R -> (ln x <= x - 1)%R.
Proof.
  intros Hx. pose proof (exp_ineq1_le (x - 1)) as H.
  replace (1 + (x - 1))%R with x in H by lra.
  destruct H as [H|H].
  - left. apply exp_lt_inv. now rewrite exp_ln.
  - right. rewrite H at 1. apply ln_exp.
Qed.

Lemma fold_Rplus_le {A : Type} (f g : A -> R) (l : list A) :
  (forall x, In x l -> (f x <= g x)%R) ->
  (fold_right Rplus 0 (map f l) <= fold_right Rplus 0 (map g l))%R.
Proof.
  induction l as [|x l IH]; intros H; simpl; [lra|].
  assert (f x <= g x)%R by (apply H; now left).
  assert (fold_right Rplus 0 (map f l) <= fold_right Rplus 0 (map g l))%R
    by (apply IH; intros y Hy; apply H; now right).
  lra.
Qed.

Lemma fold_Rplus_add {A : Type} (f g : A -> R) (l : list A) :
  fold_right Rplus 0%R (map (fun x => f x + g x)%R l) =
  (fold_right Rplus 0 (map f l) + fold_right Rplus 0 (map g l))%R.
Proof. induction l as [|x l IH]; simpl; [lra|rewrite IH; lra]. Qed.

Lemma fold_Rplus_INR {A : Type} (f : A -> nat) (l : list A) :
  fold_right Rplus 0%R (map (fun x => INR (f x)) l) = INR (list_sum (map f l)).
Proof.
  induction l as [|x l IH]; simpl; [reflexivity|].
  now rewrite IH, plus_INR.
Qed.

Lemma fold_Rplus_scale {A : Type} (c : R) (f : A -> R) (l : list A) :
  fold_right Rplus 0%R (map (fun x => f x * c)%R l) =
  (fold_right Rplus 0 (map f l) * c)%R.
Proof. induction l as [|x l IH]; simpl; [lra|rewrite IH; lra]. Qed.

(** The empirical probabilities of the distinct tokens sum to 1. *)
Lemma empirical_total sample :
  sample <> [] ->
  fold_right Rplus 0%R (map (empirical sample) (nodup Z.eq_dec sample)) = 1%R.
Proof.
  intros Hne. unfold empirical, Rdiv.
  rewrite (fold_Rplus_scale (/ INR (length sample))
             (fun v => INR (count_occ Z.eq_dec sample v))).
  rewrite fold_Rplus_INR.
  rewrite (count_occ_total (l := sample) (NoDup_nodup Z.eq_dec sample))
    by (intros x Hx; now apply nodup_In).
  apply Rinv_r. apply not_0_INR. destruct sample; [congruence|discriminate].
Qed.

Lemma empirical_le_1 sample v : (empirical sample v <= 1)%R.
Proof.
  unfold empirical. destruct sample as [|a l] eqn:E.
  - simpl. unfold Rdiv. rewrite Rmult_0_l. lra.
  - rewrite <- E.
    assert (0 < INR (length sample))%R
      by (apply lt_0_INR; subst; simpl; lia).
    apply Rmult_le_reg_r with (INR (length sample)); [assumption|].
    unfold Rdiv. rewrite Rmult_assoc, Rinv_l, Rmult_1_r, Rmult_1_l by lra.
    apply le_INR. apply count_occ_bound.
Qed.

Lemma shannon_bounds sample :
  sample <> [] ->
  (0 <= shannon_entropy sample <= ln (INR (length (nodup Z.eq_dec sample))))%R.
Proof.
  intros Hne. unfold shannon_entropy.
  set (D := nodup Z.eq_dec sample).
  assert (HD : forall v, In v D -> (0 < empirical sample v <= 1)%R).
  { intros v Hv. apply nodup_In in Hv. split;
      [now apply empirical_pos|apply empirical_le_1]. }
  assert (Hk : (0 < INR (length D))%R).
  { apply lt_0_INR. destruct sample as [|a l]; [congruence|].
    assert (In a D) by (apply nodup_In; now left).
    destruct D; [contradiction|simpl; lia]. }
  split.
  - assert (Hle :
      (fold_right Rplus 0 (map (fun v => plogp (empirical sample v)) D)
       <= fold_right Rplus 0 (map (fun _ : Z => 0%R) D))%R).
    { apply fold_Rplus_le. intros v Hv. destruct (HD v Hv) as [Hp H1].
      unfold plogp. destruct (Req_dec_T (empirical sample v) 0); [lra|].
      assert (ln (empirical sample v) <= 0)%R.
      { rewrite <- ln_1. destruct H1 as [H1|H1];
          [left; now apply ln_increasing|right; now rewrite H1]. }
      nra. }
    rewrite fold_const in Hle. lra.
  - (* H - ln k = sum p (ln (1 / (k p))) <= sum (1/k - p) = 0 *)
    assert (Hsum := empirical_total Hne). fold D in Hsum.
    assert (Hle :
      (fold_right Rplus 0
         (map (fun v => - plogp (empirical sample v)
                        + empirical sample v * - ln (INR (length D)))%R D)
       <= fold_right Rplus 0
            (map (fun v => / INR (length D) + - empirical sample v)%R D))%R).
    { apply fold_Rplus_le. intros v Hv. destruct (HD v Hv) as [Hp H1].
      set (p := empirical sample v) in *.
      unfold plogp. destruct (Req_dec_T p 0); [lra|].
      assert (Hx : (0 < / (INR (length D) * p))%R)
        by (apply Rinv_0_lt_compat; nra).
      pose proof (ln_le_minus_1 Hx) as Hln.
      rewrite ln_Rinv in Hln by nra. rewrite ln_mult in Hln by assumption.
      assert (Hinv : (p * / (INR (length D) * p) = / INR (length D))%R)
        by (field; lra).
      assert (p * (- (ln (INR (length D)) + ln p))
              <= p * (/ (INR (length D) * p) - 1))%R
        by (apply Rmult_le_compat_l; lra).
      rewrite Rmult_minus_distr_l, Rmult_1_r, Hinv in H. lra. }
    rewrite !fold_Rplus_add in Hle.
    rewrite (fold_Rplus_scale (- ln (INR (length D))) (empirical sample)) in Hle.
    rewrite Hsum in Hle.
    rewrite (fold_opp (empirical sample)), Hsum in Hle.
    rewrite (fold_opp (fun v => plogp (empirical sample v))) in Hle.
    rewrite fold_const in Hle.
    rewrite Rinv_r in Hle by lra. lra.
Qed.

Lemma shannon_nil : shannon_entropy [] = 0%R.
Proof. unfold shannon_entropy. simpl. lra. Qed.

Lemma shannon_nonneg sample : (0 <= shannon_entropy sample)%R.
Proof.
  destruct sample as [|a l] eqn:E.
  - rewrite shannon_nil. lra.
  - rewrite <- E. apply shannon_bounds. subst. discriminate.
Qed.

(** X9.  The entropy recorded for a sample is always a finite number; for a
    non-empty sample it lies between 0 and the logarithm of the number of
    distinct tokens, which is at most the logarithm of the sample length;
    for an empty sample it is 0.  Recording entropies therefore never lowers
    the accumulated sum. *)
Theorem sample_entropy_bounds :
  (forall sample,
      exists h,
        sample_entropy_of sample = Fin h /\
        (sample = [] -> h = 0%R) /\
        (sample <> [] ->
         (0 <= h <= ln (INR (length (nodup Z.eq_dec sample))))%R /\
         (ln (INR (length (nodup Z.eq_dec sample)))
          <= ln (INR (length sample)))%R)) /\
  (forall self tokens,
      (MeanMetric.mean_value (Metrics.sample_entropy self)
       <= MeanMetric.mean_value
            (Metrics.sample_entropy (Metrics.record_entropy self tokens)))%R).
Proof.
  split.
  - intros sample. exists (shannon_entropy sample).
    split; [apply sample_entropy_shannon|]. split.
    + intros ->. apply shannon_nil.
    + intros Hne. split; [now apply shannon_bounds|].
      assert (Hk : (0 < length (nodup Z.eq_dec sample))%nat).
      { destruct sample as [|a l]; [congruence|].
        assert (In a (nodup Z.eq_dec (a :: l))) by (apply nodup_In; now left).
        destruct (nodup Z.eq_dec (a :: l)); [contradiction|simpl; lia]. }
      assert (Hle : (length (nodup Z.eq_dec sample) <= length sample)%nat).
      { apply NoDup_incl_length; [apply NoDup_nodup|].
        intros x Hx. now apply nodup_In in Hx. }
      apply le_INR in Hle. apply lt_0_INR in Hk.
      destruct Hle as [Hlt|Heq]; [left; now apply ln_increasing|right; now rewrite Heq].
  - intros self tokens. rewrite record_entropy_closed.
    destruct self as [? ? ? ? ? [m w] ? ? ?]. simpl.
    assert (0 <= fold_right Rplus 0 (map shannon_entropy tokens))%R.
    { clear. induction tokens as [|s tokens IH]; simpl; [lra|].
      pose proof (shannon_nonneg s). lra. }
    lra.
Qed.

Lemma sample_entropy_bounds_witness :
  exists h,
    sample_entropy_of [1; 2; 1; 3]%Z = Fin h /\
    (0 <= h <= ln (INR (length (nodup Z.eq_dec [1; 2; 1; 3]%Z))))%R.
Proof.
  destruct (proj1 sample_entropy_bounds [1; 2; 1; 3]%Z) as (h & E & _ & H).
  exists h. split; [exact E|]. apply H. discriminate.
Defined.

Lemma fold_Rplus_perm (l l' : list R) :
  Permutation l l' -> fold_right Rplus 0%R l = fold_right Rplus 0%R l'.
Proof.
  induction 1 as [|x l l' _ IH|x y l|l l' l'' _ IH1 _ IH2]; simpl;
    [reflexivity|rewrite IH; reflexivity|lra|congruence].
Qed.

Lemma shannon_perm s s' :
  Permutation s s' -> shannon_entropy s = shannon_entropy s'.
Proof.
  intros HP. unfold shannon_entropy. f_equal.
  assert (Hemp : forall v, empirical s v = empirical s' v).
  { intros v. unfold empirical.
    rewrite (proj1 (Permutation_count_occ Z.eq_dec s s') HP v).
    now rewrite (Permutation_length HP). }
  rewrite (map_ext _ (fun v => plogp (empirical s' v)))
    by (intros v; now rewrite Hemp).
  apply fold_Rplus_perm. apply Permutation_map.
  apply NoDup_Permutation; [apply NoDup_nodup|apply NoDup_nodup|].
  intros x. rewrite !nodup_In. split; intros H.
  - now apply (Permutation_in _ HP).
  - now apply (Permutation_in _ (Permutation_sym HP)).
Qed.

Lemma nodup_map_inj (f : Z -> Z) (l : list Z) :
  (forall x y, f x = f y -> x = y) ->
  nodup Z.eq_dec (map f l) = map f (nodup Z.eq_dec l).
Proof.
  intros Hinj. induction l as [|a l IH]; simpl; [reflexivity|].
  destruct (in_dec Z.eq_dec (f a) (map f l)) as [Hin|Hnin];
    destruct (in_dec Z.eq_dec a l) as [Hin'|Hnin'].
  - exact IH.
  - exfalso. apply in_map_iff in Hin. destruct Hin as (b & Hb & Hbl).
    apply Hinj in Hb. subst b. contradiction.
  - exfalso. apply Hnin. now apply in_map.
  - simpl. now rewrite IH.
Qed.

Lemma shannon_relabel (f : Z -> Z) s :
  (forall x y, f x = f y -> x = y) ->
  shannon_entropy (map f s) = shannon_entropy s.
Proof.
  intros Hinj. unfold shannon_entropy. f_equal.
  rewrite nodup_map_inj by exact Hinj. rewrite map_map.
  f_equal. apply map_ext. intros v. unfold empirical.
  rewrite length_map. f_equal. f_equal. f_equal.
  symmetry. apply count_occ_map. exact Hinj.
Qed.

(** X10.  The recorded entropy depends on the token counts only: it is
    unchanged when the tokens of a sample are reordered or renamed one to
    one.  [record_entropy] gives the same state for any order of the
    samples, and recording a concatenated batch equals recording its two
    parts in turn. *)
Theorem entropy_symmetries :
  (forall s s', Permutation s s' -> sample_entropy_of s = sample_entropy_of s') /\
  (forall (f : Z -> Z) s,
      (forall x y, f x = f y -> x = y) ->
      sample_entropy_of (map f s) = sample_entropy_of s) /\
  (forall self tokens tokens',
      Permutation tokens tokens' ->
      Metrics.record_entropy self tokens = Metrics.record_entropy self tokens') /\
  (forall self a b,
      Metrics.record_entropy self (a ++ b) =
      Metrics.record_entropy (Metrics.record_entropy self a) b).
Proof.
  split; [|split; [|split]].
  - intros s s' HP. rewrite !sample_entropy_shannon. f_equal.
    now apply shannon_perm.
  - intros f s Hinj. rewrite !sample_entropy_shannon. f_equal.
    now apply shannon_relabel.
  - intros self tokens tokens' HP. rewrite !record_entropy_closed.
    rewrite (fold_Rplus_perm (Permutation_map shannon_entropy HP)).
    now rewrite (Permutation_length HP).
  - intros self a b. unfold Metrics.record_entropy. apply fold_left_app.
Qed.

Lemma entropy_symmetries_witness :
  sample_entropy_of [1; 2; 1; 3]%Z = sample_entropy_of [3; 1; 1; 2]%Z /\
  sample_entropy_of (map (fun t => t + 10)%Z [1; 2; 1; 3]%Z) =
    sample_entropy_of [1; 2; 1; 3]%Z.
Proof.
  split.
  - apply (proj1 entropy_symmetries).
    apply (Permutation_cons_app [3]%Z [1; 2]%Z 1%Z). simpl.
    apply (Permutation_cons_app [3; 1]%Z [] 2%Z). simpl.
    apply perm_swap.
  - apply (proj1 (proj2 entropy_symmetries)). intros x y H. lia.
Defined.

(** ** Which tokens the validity mask keeps *)

Lemma count_firstn_zero eos (row : list Z) : forall t u,
  count_occ Z.eq_dec (firstn t row) eos = 0%nat ->
  (u < t)%nat -> (u < length row)%nat ->
  nth u row eos <> eos.
Proof.
  induction row as [|a row IH]; intros t u Hc Hu Hlen; simpl in Hlen; [lia|].
  destruct t as [|t]; [lia|]. simpl in Hc.
  destruct (Z.eq_dec a eos) as [Ha|Ha]; [discriminate|].
  destruct u as [|u]; simpl; [exact Ha|].
  apply (IH t); [exact Hc|lia|lia].
Qed.

Lemma count_firstn_S eos (row : list Z) : forall t,
  (t < length row)%nat -> nth t row eos = eos ->
  count_occ Z.eq_dec (firstn (S t) row) eos =
  S (count_occ Z.eq_dec (firstn t row) eos).
Proof.
  induction row as [|a row IH]; intros t Ht Heq; simpl in Ht; [lia|].
  destruct t as [|t].
  - simpl in *. subst a. now destruct (Z.eq_dec eos eos).
  - change (firstn (S (S t)) (a :: row)) with (a :: firstn (S t) row).
    change (firstn (S t) (a :: row)) with (a :: firstn t row).
    simpl in Heq. cbn [count_occ].
    rewrite (IH t) by (try lia; exact Heq).
    now destruct (Z.eq_dec a eos).
Qed.

(** X11.  Inside a chunk row every token other than the end-of-sequence
    token is marked valid, an end-of-sequence token is marked valid exactly
    when none precedes it in the row, and so at most one end-of-sequence
    token per row is ever valid. *)
Theorem mask_keeps_only_first_eos :
  forall eos row,
    (forall t, (t < length row)%nat -> nth t row eos <> eos ->
       nth t (validity_mask eos row) false = true) /\
    (forall t, (t < length row)%nat -> nth t row eos = eos ->
       (nth t (validity_mask eos row) false = true <->
        forall u, (u < t)%nat -> nth u row eos <> eos)) /\
    (forall t1 t2,
       (t1 < length row)%nat -> (t2 < length row)%nat ->
       nth t1 row eos = eos -> nth t2 row eos = eos ->
       nth t1 (validity_mask eos row) false = true ->
       nth t2 (validity_mask eos row) false = true ->
       t1 = t2).
Proof.
  intros eos row.
  assert (Hiff : forall t, (t < length row)%nat -> nth t row eos = eos ->
       (nth t (validity_mask eos row) false = true <->
        forall u, (u < t)%nat -> nth u row eos <> eos)).
  { intros t Ht Heq. rewrite validity_mask_nth by exact Ht.
    rewrite Heq, Z.eqb_refl, orb_false_r, Nat.eqb_eq. split.
    - intros Hc u Hu. rewrite count_firstn_S in Hc by assumption.
      apply (@count_firstn_zero eos row t u); [lia|exact Hu|lia].
    - intros Hbefore. now apply first_eos_count. }
  split; [|split; [exact Hiff|]].
  - intros t Ht Hne. rewrite validity_mask_nth by exact Ht.
    rewrite (proj2 (Z.eqb_neq _ _) Hne). apply orb_true_r.
  - intros t1 t2 H1 H2 E1 E2 V1 V2.
    pose proof (proj1 (Hiff t1 H1 E1) V1) as F1.
    pose proof (proj1 (Hiff t2 H2 E2) V2) as F2.
    destruct (Nat.lt_trichotomy t1 t2) as [Hlt|[Heq|Hgt]]; [|exact Heq|].
    + exfalso. now apply (F2 t1 Hlt).
    + exfalso. now apply (F1 t2 Hgt).
Qed.

Lemma mask_keeps_only_first_eos_witness :
  nth 1 (validity_mask 0 [5; 6; 0; 0; 0]%Z) false = true /\
  (nth 3 (validity_mask 0 [5; 6; 0; 0; 0]%Z) false = true -> False).
Proof.
  split.
  - apply (proj1 (mask_keeps_only_first_eos 0 [5; 6; 0; 0; 0]%Z) 1%nat);
      [simpl; lia|discriminate].
  - intros H.
    apply (proj1 (proj1 (proj2 (mask_keeps_only_first_eos 0 [5; 6; 0; 0; 0]%Z))
                    3%nat ltac:(simpl; lia) eq_refl) H 2%nat); [lia|reflexivity].
Defined.

Lemma cumsum_from_free eos content rest : forall acc,
  (forall x, In x content -> x <> eos) ->
  cumsum_from acc (map (fun tok => b2z (tok =? eos)%Z) (content ++ rest)) =
  repeat acc (length content)
  ++ cumsum_from acc (map (fun tok => b2z (tok =? eos)%Z) rest).
Proof.
  induction content as [|a content IH]; intros acc Hfree; [reflexivity|].
  cbn [app map cumsum_from length repeat].
  assert (Ha : a <> eos) by (apply Hfree; now left).
  rewrite (proj2 (Z.eqb_neq _ _) Ha). simpl b2z. rewrite Z.add_0_r.
  rewrite IH by (intros x Hx; apply Hfree; now right). reflexivity.
Qed.

Lemma first_eos_padding_from eos m : forall acc,
  (1 <= acc)%Z ->
  map (fun c => (c =? 1)%Z)
      (cumsum_from acc (map (fun tok => b2z (tok =? eos)%Z) (repeat eos m))) =
  repeat false m.
Proof.
  induction m as [|m IH]; intros acc Hacc; [reflexivity|].
  cbn [repeat map cumsum_from]. rewrite Z.eqb_refl. simpl b2z.
  rewrite IH by lia. f_equal. apply Z.eqb_neq. lia.
Qed.

Lemma bool_add_app a1 : forall b1 a2 b2,
  length a1 = length b1 ->
  bool_add (a1 ++ a2) (b1 ++ b2) = bool_add a1 b1 ++ bool_add a2 b2.
Proof.
  induction a1 as [|x a1 IH]; intros [|y b1] a2 b2 H; simpl in H;
    try discriminate; [reflexivity|].
  simpl. f_equal. apply IH. now injection H.
Qed.

Lemma bool_add_repeat (x y : bool) n :
  bool_add (repeat x n) (repeat y n) = repeat (x || y) n.
Proof. induction n as [|n IH]; simpl; [reflexivity|now rewrite IH]. Qed.

Lemma count_true_repeat b n :
  count_true (repeat b n) = if b then n else 0%nat.
Proof.
  unfold count_true. induction n as [|n IH]; simpl; [now destruct b|].
  destruct b; simpl; [now rewrite IH|exact IH].
Qed.

Lemma map_to_repeat {A B : Type} (b : B) (l : list A) :
  map (fun _ => b) l = repeat b (length l).
Proof. induction l as [|x l IH]; simpl; [reflexivity|now rewrite IH]. Qed.

(** The mask of a row made of content followed by padding. *)
Lemma validity_mask_padded eos content m :
  (forall x, In x content -> x <> eos) ->
  validity_mask eos (content ++ repeat eos m) =
  repeat true (length content)
  ++ match m with
     | O => []
     | S m' => true :: repeat false m'
     end.
Proof.
  intros Hfree. unfold validity_mask, first_eos, token_mask, cumsum.
  rewrite cumsum_from_free by exact Hfree.
  rewrite !map_app, map_repeat.
  rewrite (map_ext_in _ (fun _ => true) content).
  2:{ intros x Hx. rewrite (proj2 (Z.eqb_neq _ _) (Hfree x Hx)). reflexivity. }
  rewrite (map_ext_in _ (fun _ => false) (repeat eos m)).
  2:{ intros x Hx. apply repeat_spec in Hx. subst. now rewrite Z.eqb_refl. }
  rewrite bool_add_app.
  2:{ now rewrite repeat_length, length_map. }
  f_equal.
  - rewrite map_to_repeat. apply bool_add_repeat.
  - destruct m as [|m]; [reflexivity|].
    cbn [repeat map cumsum_from]. rewrite Z.eqb_refl. simpl b2z.
    cbn [bool_add]. f_equal.
    rewrite first_eos_padding_from by lia.
    rewrite map_to_repeat, repeat_length. apply bool_add_repeat.
Qed.

(** X12.  Trailing end-of-sequence padding never counts: a row of
    non-empty content without end-of-sequence token followed by one or more
    end-of-sequence tokens contributes as many positions as the content is
    long (all content tokens but the first, plus the first end-of-sequence
    token), however long the padding; without any padding the content
    contributes one position less; a row of end-of-sequence tokens only
    contributes nothing. *)
Theorem padding_does_not_count :
  (forall eos content m,
      (forall x, In x content -> x <> eos) -> content <> [] ->
      valid_tokens eos (content ++ repeat eos (S m)) =
        repeat true (length content) ++ repeat false m /\
      count_true (valid_tokens eos (content ++ repeat eos (S m))) =
        length content) /\
  (forall eos content,
      (forall x, In x content -> x <> eos) ->
      count_true (valid_tokens eos content) = (length content - 1)%nat) /\
  (forall eos m, count_true (valid_tokens eos (repeat eos m)) = 0%nat).
Proof.
  split; [|split].
  - intros eos content m Hfree Hne.
    rewrite valid_tokens_tl, validity_mask_padded by exact Hfree.
    destruct content as [|a content]; [congruence|].
    cbn [length repeat app tl].
    assert (E : repeat true (length content) ++ true :: repeat false m =
                true :: repeat true (length content) ++ repeat false m).
    { clear. induction (length content) as [|n IH]; simpl; [reflexivity|].
      now rewrite IH. }
    rewrite E. split; [reflexivity|].
    change (true :: repeat true (length content) ++ repeat false m)
      with (repeat true (S (length content)) ++ repeat false m).
    rewrite count_true_app, !count_true_repeat. lia.
  - intros eos content Hfree.
    rewrite valid_tokens_tl.
    pose proof (@validity_mask_padded eos content 0 Hfree) as H.
    cbn [repeat] in H. rewrite !app_nil_r in H. rewrite H.
    destruct content as [|a content]; [reflexivity|].
    cbn [length repeat tl]. rewrite count_true_repeat. lia.
  - intros eos m. rewrite valid_tokens_tl.
    pose proof (@validity_mask_padded eos [] m) as H.
    cbn [app length repeat] in H. rewrite H by (intros x []).
    destruct m as [|m]; [reflexivity|].
    cbn [length repeat app tl]. apply count_true_repeat.
Qed.

Lemma padding_does_not_count_witness :
  count_true (valid_tokens 0 ([5; 6; 7] ++ repeat 0 (S 4))%Z) = 3%nat /\
  count_true (valid_tokens 0 ([5; 6; 7] ++ repeat 0 (S 0))%Z) = 3%nat.
Proof.
  split.
  - apply (proj1 padding_does_not_count 0%Z [5; 6; 7]%Z 4%nat);
      [|discriminate].
    intros x [<-|[<-|[<-|[]]]]; discriminate.
  - apply (proj1 padding_does_not_count 0%Z [5; 6; 7]%Z 0%nat);
      [|discriminate].
    intros x [<-|[<-|[<-|[]]]]; discriminate.
Defined.

(** ** When the generative-perplexity loop fails *)




Section Failures.

Variable tokenizer : list string -> Z -> tokens2 * tokens2.
Variable eval_nll : tokens2 -> tokens2 -> nat -> nat -> Q.



End Failures.



(** ** The value the generative-perplexity loop accumulates *)

Lemma surviving_masked (xs : list Q) : forall ys : list bool,
  length xs = length ys ->
  surviving (map (@Fin Q) xs, map (fun b => Fin (b2q b)) ys) =
  combine xs (map b2q ys).
Proof.
  intros ys H. rewrite surviving_same by (now rewrite !length_map).
  revert ys H. induction xs as [|x xs IH]; intros [|y ys] H; simpl in H;
    try discriminate; [reflexivity|].
  cbn [map combine flat_map NLL.paired_valid app]. f_equal.
  apply IH. now injection H.
Qed.

Lemma combine_fst_snd {A B : Type} (xs : list A) : forall ys : list B,
  length xs = length ys ->
  map fst (combine xs ys) = xs /\ map snd (combine xs ys) = ys.
Proof.
  induction xs as [|x xs IH]; intros [|y ys] H; simpl in H; try discriminate.
  - now split.
  - destruct (IH ys) as [H1 H2]; [now injection H|].
    simpl. now rewrite H1, H2.
Qed.

(** A masked loss lies between the bounds scaled by its mask entry. *)
Lemma masked_row_within lo hi (nlls : list Q) : forall mask,
  (forall x, In x nlls -> lo <= x /\ x <= hi) ->
  Forall2 (fun x m => lo * b2q m <= x /\ x <= hi * b2q m)
          (mul_mask nlls mask) (firstn (length nlls) mask).
Proof.
  induction nlls as [|x nlls IH]; intros mask H.
  - constructor.
  - destruct mask as [|m mask]; [constructor|].
    cbn [mul_mask length firstn]. constructor.
    + destruct (H x (or_introl eq_refl)) as [Hlo Hhi].
      destruct m; cbv beta iota delta [b2q]; split; Lqa.lra.
    + apply IH. intros y Hy. apply H. now right.
Qed.

Lemma within_sums lo hi (xs : list Q) (ms : list bool) :
  Forall2 (fun x m => lo * b2q m <= x /\ x <= hi * b2q m) xs ms ->
  0 <= sum (map b2q ms) /\
  lo * sum (map b2q ms) <= sum xs /\ sum xs <= hi * sum (map b2q ms).
Proof.
  induction 1 as [|x m xs ms [Hlo Hhi] _ (IH0 & IH1 & IH2)]; simpl.
  - repeat split; Lqa.lra.
  - assert (0 <= b2q m) by (destruct m; cbv beta iota delta [b2q]; Lqa.lra).
    repeat split; Lqa.lra.
Qed.

Section Gain.

Variable tokenizer : list string -> Z -> tokens2 * tokens2.
Variable eval_nll : tokens2 -> tokens2 -> nat -> nat -> Q.
Variables lo hi : Q.
Hypothesis eval_within : forall c a i j, lo <= eval_nll c a i j /\ eval_nll c a i j <= hi.

Lemma chunk_within eos c a (rows : tokens2) : forall s,
  Forall2 (fun x m => lo * b2q m <= x /\ x <= hi * b2q m)
    (concat (map (fun p => mul_mask (fst p) (snd p))
       (combine
          (map (fun ir => map (eval_nll c a (fst ir))
                              (seq 0 (length (snd ir) - 1)))
               (combine (seq s (length rows)) rows))
          (map (valid_tokens eos) rows))))
    (concat (map (valid_tokens eos) rows)).
Proof.
  induction rows as [|row rows IH]; intros s; [constructor|].
  cbn [length seq combine map concat fst snd].
  apply Forall2_app; [|apply IH].
  pose proof (@masked_row_within lo hi
                (map (eval_nll c a s) (seq 0 (length row - 1)))
                (valid_tokens eos row)) as H.
  rewrite length_map, length_seq in H.
  rewrite firstn_all2 in H by (rewrite length_valid_tokens; lia). apply H.
  intros x Hx. apply in_map_iff in Hx. destruct Hx as (j & <- & _).
  apply eval_within.
Qed.

Lemma gained_refl s : gained_within lo hi s s.
Proof. unfold gained_within. cbn zeta. repeat split; Lqa.lra. Qed.

Lemma gained_trans a b c :
  gained_within lo hi a b -> gained_within lo hi b c -> gained_within lo hi a c.
Proof.
  unfold gained_within. cbn zeta. intros (A0 & A1 & A2) (B0 & B1 & B2).
  repeat split; Lqa.lra.
Qed.

Lemma score_chunk_gain self chunk self' :
  Metrics.score_chunk eval_nll self chunk = Ok self' ->
  gained_within lo hi self self'.
Proof.
  destruct chunk as [c a]. unfold Metrics.score_chunk, Metrics.cross_entropy.
  set (xs := concat _). set (ms := concat _).
  assert (Hlen : length xs = length ms) by apply masked_shape.
  assert (Hb : NLL.broadcast_to (map (fun b => Fin (b2q b)) ms)
                 (length (map (@Fin Q) xs)) =
               Ok (map (fun b => Fin (b2q b)) ms))
    by (apply broadcast_same; now rewrite !length_map).
  destruct (update_sums (Metrics.gen_ppl self) _ _ Hb) as (g & U & Hm & Hw).
  rewrite U. simpl. intros [= <-].
  rewrite surviving_masked in Hm, Hw by exact Hlen.
  destruct (combine_fst_snd xs (map b2q ms)) as [E1 E2];
    [now rewrite length_map|].
  rewrite E1 in Hm. rewrite E2 in Hw.
  destruct (within_sums (chunk_within (Metrics.eos_token_id self) c a c 0))
    as (H0 & H1 & H2).
  fold xs ms in H0, H1, H2.
  unfold gained_within. cbn zeta. destruct self; simpl in *.
  rewrite Hm, Hw. repeat split; Lqa.lra.
Qed.

Lemma record_gain self text_samples max_length retokenize self' :
  Metrics.record_generative_perplexity tokenizer eval_nll self text_samples
    max_length retokenize = Ok self' ->
  gained_within lo hi self self'.
Proof.
  unfold Metrics.record_generative_perplexity.
  destruct (Metrics.prepare _ _ _ _ _) as [[[samples attn_mask] ctx]|]; simpl;
    [|discriminate].
  unfold Metrics.score_samples.
  destruct (Z.min _ _ =? 0)%Z; [discriminate|].
  apply for_each_preserves; [apply gained_refl|apply gained_trans|].
  intros s i s' _. unfold Metrics.score_batch.
  destruct (split _ ctx) as [cs|]; simpl; [|discriminate].
  destruct (split _ ctx) as [ms|]; simpl; [|discriminate].
  apply for_each_preserves; [apply gained_refl|apply gained_trans|].
  intros t x t' _. apply score_chunk_gain.
Qed.

End Gain.

(** X14.  Masked-out positions add neither value nor weight: whenever
    [record_generative_perplexity] returns and every loss of the reference
    model lies between [lo] and [hi], the weight of [gen_ppl] has not
    decreased and the value it gained lies between [lo] and [hi] times the
    weight it gained.  Starting from a reset accumulator, the mean NLL read
    afterwards lies between [lo] and [hi], whatever the masks are. *)
Theorem gen_ppl_mean_within_losses :
  forall tokenizer eval_nll lo hi self text_samples max_length retokenize self',
    (forall c a i j, lo <= eval_nll c a i j /\ eval_nll c a i j <= hi) ->
    Metrics.record_generative_perplexity tokenizer eval_nll self text_samples
      max_length retokenize = Ok self' ->
    gained_within lo hi self self' /\
    (NLL.equiv (Metrics.gen_ppl self) NLL.reset ->
     ~ NLL.weight (Metrics.gen_ppl self') == 0 ->
     exists q,
       NLL.compute (Metrics.gen_ppl self') = Fin q /\ lo <= q /\ q <= hi).
Proof.
  intros tokenizer eval_nll lo hi self text_samples max_length retokenize
         self' Hev E.
  pose proof (@record_gain tokenizer eval_nll lo hi Hev _ _ _ _ _ E) as G.
  split; [exact G|].
  intros [Hm0 Hw0] Hne. unfold NLL.compute. rewrite fdiv_finite by exact Hne.
  eexists. split; [reflexivity|].
  unfold gained_within in G. cbn zeta in G. simpl in Hm0, Hw0.
  rewrite Hm0, Hw0 in G. destruct G as (G0 & G1 & G2).
  assert (Hpos : 0 < NLL.weight (Metrics.gen_ppl self')).
  { apply Qle_lteq in G0. destruct G0 as [G0|G0]; [Lqa.lra|].
    exfalso. apply Hne. Lqa.lra. }
  split.
  - apply Qle_shift_div_l; [exact Hpos|Lqa.lra].
  - apply Qle_shift_div_r; [exact Hpos|Lqa.lra].
Qed.

Lemma gen_ppl_mean_within_losses_witness :
  exists self' q,
    Metrics.record_generative_perplexity (fun _ _ => ([], []))
      (fun _ _ i j => if Nat.even (i + j) then 1 else 2)
      (Metrics.init "gpt2-large" 2 0)
      (Metrics.Tokens [[5; 6; 0]; [5; 0; 0]]%Z) 3 false = Ok self' /\
    NLL.compute (Metrics.gen_ppl self') = Fin q /\ 1 <= q /\ q <= 2.
Proof.
  destruct (Metrics.record_generative_perplexity (fun _ _ => ([], []))
              (fun _ _ i j => if Nat.even (i + j) then 1 else 2)
              (Metrics.init "gpt2-large" 2 0)
              (Metrics.Tokens [[5; 6; 0]; [5; 0; 0]]%Z) 3 false)
    as [self'|e] eqn:E; [|vm_compute in E; discriminate E].
  pose proof E as E2. vm_compute in E2. injection E2 as E2.
  destruct (@gen_ppl_mean_within_losses (fun _ _ => ([], []))
              (fun _ _ i j => if Nat.even (i + j) then 1 else 2) 1 2
              (Metrics.init "gpt2-large" 2 0)
              (Metrics.Tokens [[5; 6; 0]; [5; 0; 0]]%Z) 3 false self')
    as (_ & H).
  - intros c a i j. destruct (Nat.even (i + j)); split; discriminate.
  - exact E.
  - destruct H as (q & Hq & Hb).
    + split; reflexivity.
    + rewrite <- E2. discriminate.
    + exists self', q. split; [reflexivity|]. split; [exact Hq|exact Hb].
Defined.

(** ** Chunking *)

Lemma slices_concat {A : Type} (k : nat) (l : list A) (n : nat) :
  concat (map (fun j => slice (j * k) ((j + 1) * k) l) (seq 0 n)) =
  firstn (n * k) l.
Proof.
  induction n as [|n IH]; [reflexivity|].
  rewrite seq_S, map_app, concat_app, IH. cbn [map concat Nat.add].
  rewrite app_nil_r. symmetry. apply slice_step.
Qed.

Lemma chunk_count_covers (L k : nat) :
  (0 < k)%nat ->
  let n := Nat.max 1 ((L + k - 1) / k) in
  (L <= n * k)%nat /\ ((0 < L)%nat -> ((n - 1) * k < L)%nat) /\
  ((L <= k)%nat -> n = 1%nat).
Proof.
  intros Hk n.
  pose proof (Nat.div_mod_eq (L + k - 1) k) as Hdm.
  pose proof (Nat.mod_upper_bound (L + k - 1) k ltac:(lia)) as Hmb.
  set (q := ((L + k - 1) / k)%nat) in *.
  assert (Hn : n = Nat.max 1 q) by reflexivity.
  split; [|split].
  - nia.
  - intros HL. assert (1 <= q)%nat by nia. nia.
  - intros HL. assert (q <= 1)%nat by nia. lia.
Qed.

Lemma row_chunks_concat k (row : list Z) :
  (0 < k)%nat -> concat (row_chunks k row) = row.
Proof.
  intros Hk. unfold row_chunks. rewrite slices_concat.
  apply firstn_all2. apply (chunk_count_covers (length row) Hk).
Qed.

Lemma length_row_chunk k (row : list Z) j :
  (0 < k)%nat -> (0 < length row)%nat ->
  (j < length (row_chunks k row))%nat ->
  (1 <= length (slice (j * k) ((j + 1) * k) row) <= k)%nat.
Proof.
  intros Hk HL Hj. unfold row_chunks in Hj. rewrite length_map, length_seq in Hj.
  destruct (chunk_count_covers (length row) Hk) as (_ & Hlast & _).
  specialize (Hlast HL).
  unfold slice. rewrite length_firstn, length_skipn. nia.
Qed.

Lemma row_chunks_single k (row : list Z) :
  (0 < k)%nat -> (length row <= k)%nat -> row_chunks k row = [row].
Proof.
  intros Hk HL. unfold row_chunks.
  rewrite (proj2 (proj2 (chunk_count_covers (length row) Hk)) HL).
  cbn [seq map]. f_equal. unfold slice. simpl skipn.
  apply firstn_all2. lia.
Qed.

Lemma valid_tokens_free_count eos content :
  (forall x, In x content -> x <> eos) ->
  count_true (valid_tokens eos content) = (length content - 1)%nat.
Proof.
  intros Hfree. rewrite valid_tokens_tl.
  pose proof (@validity_mask_padded eos content 0 Hfree) as H.
  cbn [repeat] in H. rewrite !app_nil_r in H. rewrite H.
  destruct content as [|a content]; [reflexivity|].
  cbn [length repeat tl]. rewrite count_true_repeat. lia.
Qed.

Lemma list_sum_pred (ls : list nat) :
  (forall n, In n ls -> (1 <= n)%nat) ->
  list_sum (map (fun n => n - 1)%nat ls) = (list_sum ls - length ls)%nat.
Proof.
  intros H.
  assert (E : (list_sum (map (fun n => n - 1)%nat ls) + length ls)%nat
              = list_sum ls).
  { induction ls as [|n ls IH]; [reflexivity|]. simpl.
    assert (1 <= n)%nat by (apply H; now left).
    specialize (IH (fun m Hm => H m (or_intror Hm))). lia. }
  lia.
Qed.

Lemma length_concat_sum {A : Type} (ls : list (list A)) :
  length (concat ls) = list_sum (map (@length A) ls).
Proof.
  induction ls as [|l ls IH]; simpl; [reflexivity|].
  now rewrite length_app, IH.
Qed.

(** X15.  Cutting a sample into chunks of width [k] loses no token: the
    chunks concatenate back to the sample, and every chunk of a non-empty
    sample holds between 1 and [k] tokens.  A sample no longer than [k] is a
    single chunk, so its valid positions are those of its own shifted mask.
    Since the first token of every chunk has no loss, a sample of [L >= 1]
    tokens without end-of-sequence token contributes [L] minus the number
    of its chunks. *)
Theorem chunking_loses_one_position_per_chunk :
  forall eos k row,
    (0 < k)%nat ->
    concat (row_chunks k row) = row /\
    (forall chunk, row <> [] -> In chunk (row_chunks k row) ->
       (1 <= length chunk <= k)%nat) /\
    ((length row <= k)%nat ->
     row_chunks k row = [row] /\
     valid_positions eos k row = count_true (valid_tokens eos row)) /\
    (row <> [] -> (forall x, In x row -> x <> eos) ->
     valid_positions eos k row = (length row - length (row_chunks k row))%nat).
Proof.
  intros eos k row Hk.
  assert (Hchunk : forall chunk, row <> [] -> In chunk (row_chunks k row) ->
       (1 <= length chunk <= k)%nat).
  { intros chunk Hne Hin.
    assert (HL : (0 < length row)%nat) by (destruct row; [congruence|simpl; lia]).
    pose proof Hin as Hin'. unfold row_chunks in Hin'.
    apply in_map_iff in Hin'. destruct Hin' as (j & <- & Hj).
    apply in_seq in Hj. apply length_row_chunk; try assumption.
    unfold row_chunks. rewrite length_map, length_seq. lia. }
  split; [now apply row_chunks_concat|]. split; [exact Hchunk|]. split.
  - intros HL. split; [now apply row_chunks_single|].
    unfold valid_positions. rewrite row_chunks_single by assumption.
    simpl. lia.
  - intros Hne Hfree. unfold valid_positions.
    rewrite (map_ext_in _ (fun c => (length c - 1)%nat)).
    + rewrite <- (map_map (@length Z) (fun n => (n - 1)%nat)).
      rewrite list_sum_pred.
      * rewrite <- length_concat_sum, row_chunks_concat by exact Hk.
        now rewrite length_map.
      * intros n Hn. apply in_map_iff in Hn. destruct Hn as (c & <- & Hc).
        now apply Hchunk.
    + intros c Hc. apply valid_tokens_free_count.
      intros x Hx. apply Hfree.
      rewrite <- (row_chunks_concat row Hk). apply in_concat. now exists c.
Qed.

Lemma chunking_loses_one_position_per_chunk_witness :
  valid_positions 0 3 [5; 6; 7; 8; 9; 5; 6]%Z =
  (length [5; 6; 7; 8; 9; 5; 6]%Z
   - length (row_chunks 3 [5; 6; 7; 8; 9; 5; 6]%Z))%nat.
Proof.
  apply (chunking_loses_one_position_per_chunk 0%Z [5; 6; 7; 8; 9; 5; 6]%Z
           (k := 3)); [lia|discriminate|].
  intros x Hx. repeat (destruct Hx as [<-|Hx]; [discriminate|]). destruct Hx.
Defined.

(** ** Token input is scored in one chunk *)

Lemma valid_positions_single eos k row :
  (0 < k)%nat -> (length row <= k)%nat ->
  valid_positions eos k row = count_true (valid_tokens eos row).
Proof.
  intros Hk HL. unfold valid_positions. rewrite row_chunks_single by assumption.
  simpl. lia.
Qed.

Lemma total_valid_single eos L (rows : tokens2) :
  (0 < L)%nat -> rectangular L rows ->
  total_valid eos L rows =
  list_sum (map (fun row => count_true (valid_tokens eos row)) rows).
Proof.
  intros HL Hrect. unfold total_valid. f_equal. apply map_ext_in.
  intros row Hrow. apply valid_positions_single; [exact HL|].
  unfold rectangular in Hrect. rewrite Forall_forall in Hrect.
  rewrite (Hrect row Hrow). lia.
Qed.

Lemma padded_count eos cm :
  (forall x, In x (fst cm) -> x <> eos) -> fst cm <> [] ->
  count_true (valid_tokens eos (padded eos cm)) = length (fst cm).
Proof.
  intros Hfree Hne. unfold padded.
  rewrite valid_tokens_tl, validity_mask_padded by exact Hfree.
  destruct (fst cm) as [|a content]; [congruence|].
  cbn [length repeat app tl].
  assert (E : repeat true (length content) ++ true :: repeat false (snd cm) =
              repeat true (S (length content)) ++ repeat false (snd cm)).
  { clear. induction (length content) as [|n IH]; simpl; [reflexivity|].
    simpl in IH. now rewrite IH. }
  rewrite E, count_true_app, !count_true_repeat. lia.
Qed.

(** X16.  With [retokenize=False] the chunk width is the sequence length,
    so every sample is scored as one chunk: the weight of [gen_ppl] grows by
    the positions the shifted mask keeps in each sample of a full group.
    When those samples are non-empty content without end-of-sequence token
    followed by end-of-sequence padding, that is the total length of the
    contents, whatever the amount of padding. *)
Theorem token_input_counts_content :
  forall tokenizer eval_nll self samples max_length L,
    (0 < Metrics.eval_ppl_batch_size self)%Z -> samples <> [] ->
    (0 < L)%nat -> rectangular L samples ->
    exists self',
      Metrics.record_generative_perplexity tokenizer eval_nll self
        (Metrics.Tokens samples) max_length false = Ok self' /\
      NLL.weight (Metrics.gen_ppl self') ==
        NLL.weight (Metrics.gen_ppl self)
        + natQ (list_sum
                  (map (fun row =>
                          count_true
                            (valid_tokens (Metrics.eos_token_id self) row))
                       (scored self samples))) /\
      (forall cms,
          scored self samples = map (padded (Metrics.eos_token_id self)) cms ->
          Forall (fun cm =>
                    fst cm <> [] /\
                    forall x, In x (fst cm) -> x <> Metrics.eos_token_id self)
                 cms ->
          NLL.weight (Metrics.gen_ppl self') ==
            NLL.weight (Metrics.gen_ppl self)
            + natQ (list_sum (map (fun cm => length (fst cm)) cms))).
Proof.
  intros tokenizer eval_nll self samples max_length L Hb Hne HL Hrect.
  assert (Hcols : ncols samples = L).
  { destruct samples as [|r rest]; [congruence|]. now inversion Hrect. }
  assert (Hshape : map (@length Z) (map (map (fun _ => 1%Z)) samples) =
                   map (@length Z) samples).
  { rewrite map_map. apply map_ext. intros row. apply length_map. }
  destruct (@score_samples_weight eval_nll self samples
              (map (map (fun _ => 1%Z)) samples) L L Hb Hne HL Hrect Hshape)
    as (self' & E & _ & W).
  exists self'.
  assert (Hrun : Metrics.record_generative_perplexity tokenizer eval_nll self
                   (Metrics.Tokens samples) max_length false = Ok self').
  { unfold Metrics.record_generative_perplexity. simpl. rewrite Hcols. exact E. }
  split; [exact Hrun|].
  assert (Hsc : rectangular L (scored self samples)).
  { unfold scored, rectangular in *. apply Forall_forall. intros r Hr.
    rewrite Forall_forall in Hrect. apply Hrect.
    rewrite <- (firstn_skipn (Z.to_nat (num_batches_of self samples)
                              * Z.to_nat (batch_size_of self samples)) samples).
    apply in_or_app. now left. }
  rewrite (total_valid_single _ HL Hsc) in W.
  split; [exact W|].
  intros cms Hcms Hall. rewrite W. apply Qplus_comp; [reflexivity|].
  apply natQ_eq. rewrite Hcms, map_map. f_equal.
  apply map_ext_in. intros cm Hcm.
  rewrite Forall_forall in Hall. destruct (Hall cm Hcm) as [H1 H2].
  now apply padded_count.
Qed.

Lemma token_input_counts_content_witness :
  exists self',
    Metrics.record_generative_perplexity (fun _ _ => ([], []))
      (fun _ _ _ _ => 1) (Metrics.init "gpt2-large" 2 0)
      (Metrics.Tokens [[5; 6; 7; 0; 0]; [5; 0; 0; 0; 0]; [8; 8; 8; 8; 0]]%Z)
      5 false = Ok self' /\
    NLL.weight (Metrics.gen_ppl self') == 4.
Proof.
  destruct (@token_input_counts_content (fun _ _ => ([], []))
              (fun _ _ _ _ => 1) (Metrics.init "gpt2-large" 2 0)
              [[5; 6; 7; 0; 0]; [5; 0; 0; 0; 0]; [8; 8; 8; 8; 0]]%Z 5 5%nat)
    as (self' & E & _ & H).
  - reflexivity.
  - discriminate.
  - lia.
  - repeat constructor.
  - exists self'. split; [exact E|].
    rewrite (H [([5; 6; 7]%Z, 1%nat); ([5]%Z, 3%nat)]).
    + reflexivity.
    + reflexivity.
    + repeat constructor; try discriminate;
        simpl; intros x Hx;
        repeat (destruct Hx as [<-|Hx]; [discriminate|]); destruct Hx.
Defined.

(** ** The chunk width chosen for retokenized text *)

Lemma is_llama2_spec self :
  Metrics.is_llama2 self = true <->
  exists m,
    String.substring m 6 (Metrics.gen_ppl_eval_model_name_or_path self)
    = "llama2"%string.
Proof.
  unfold Metrics.is_llama2.
  destruct (String.index 0 "llama2"
              (Metrics.gen_ppl_eval_model_name_or_path self)) as [m|] eqn:E.
  - split; [intros _|reflexivity]. exists m.
    apply (String.index_correct1 0 m "llama2" _ E).
  - split; [discriminate|]. intros [m Hm]. exfalso.
    apply (String.index_correct3 0 m "llama2" _ E); [discriminate|lia|exact Hm].
Qed.

(** X17.  [_eval_retokenize] hands back the tokenizer's ids and attention
    mask unchanged, with a chunk width of 4096 exactly when ["llama2"]
    occurs somewhere in the model name and of 1024 otherwise. *)
Theorem retokenize_context_size :
  forall tokenizer self text_samples max_length,
    let r := Metrics.eval_retokenize tokenizer self text_samples max_length in
    let name := Metrics.gen_ppl_eval_model_name_or_path self in
    fst r = tokenizer text_samples max_length /\
    (snd r = 4096%nat <->
     exists m, String.substring m 6 name = "llama2"%string) /\
    (snd r = 1024%nat <->
     forall m, String.substring m 6 name <> "llama2"%string).
Proof.
  intros tokenizer self text_samples max_length r name.
  unfold r, Metrics.eval_retokenize.
  destruct (tokenizer text_samples max_length) as [samples attn_mask].
  cbn [fst snd]. split; [reflexivity|].
  pose proof (is_llama2_spec self) as H. fold name in H.
  destruct (Metrics.is_llama2 self).
  - split.
    + split; [intros _; now apply H|reflexivity].
    + split; [discriminate|]. intros Hn. destruct (proj1 H eq_refl) as [m Hm].
      now destruct (Hn m).
  - split.
    + split; [discriminate|]. intros Hex. apply H in Hex. discriminate.
    + split; [|reflexivity]. intros _ m Hm.
      assert (false = true) by (apply H; now exists m). discriminate.
Qed.

Lemma retokenize_context_size_witness :
  snd (Metrics.eval_retokenize (fun _ _ => ([[1; 2]], [[1; 1]])%Z)
         (Metrics.init "meta-llama/llama2-7b-hf" 2 0) ["a"%string] 16)
  = 4096%nat.
Proof.
  apply (proj2 (proj1 (proj2 (retokenize_context_size
                                (fun _ _ => ([[1; 2]], [[1; 1]])%Z)
                                (Metrics.init "meta-llama/llama2-7b-hf" 2 0)
                                ["a"%string] 16)))).
  exists 11%nat. reflexivity.
Defined.

(** ** The chunks of a group and the chunks of its samples *)

Lemma nth_map_slice (group : tokens2) i row lo hi :
  nth_error group i = Some row ->
  nth i (map (slice lo hi) group) [] = slice lo hi row.
Proof.
  revert i. induction group as [|r group IH]; intros [|i] H; simpl in H;
    try discriminate.
  - now injection H as ->.
  - simpl. now apply IH.
Qed.

(** X18.  [torch.split] cuts all samples of a group at the same columns:
    for a group whose samples have [L] columns and a positive width, the
    call returns, the number of chunks is [max(1, ceil(L / k))], and the
    rows that sample [i] has in the successive chunks are exactly the chunks
    of sample [i], which concatenate back to it. *)
Theorem split_cuts_every_sample_alike :
  forall (group : tokens2) k L i row,
    (0 < k)%nat -> rectangular L group ->
    nth_error group i = Some row ->
    exists chunks,
      split group k = Ok chunks /\
      length chunks = Nat.max 1 ((L + k - 1) / k) /\
      map (fun c => nth i c []) chunks = row_chunks k row /\
      concat (map (fun c => nth i c []) chunks) = row.
Proof.
  intros group k L i row Hk Hrect Hi.
  assert (Hrow : length row = L).
  { unfold rectangular in Hrect. rewrite Forall_forall in Hrect.
    apply Hrect. now apply nth_error_In in Hi. }
  assert (Hcols : ncols group = L).
  { destruct group as [|r rest]; [now destruct i|]. now inversion Hrect. }
  unfold split. destruct (Nat.eqb_spec k 0) as [->|_]; [lia|].
  eexists. split; [reflexivity|]. rewrite Hcols.
  split; [now rewrite length_map, length_seq|].
  assert (E : map (fun c => nth i c [])
                (map (fun j => map (slice (j * k) ((j + 1) * k)) group)
                     (seq 0 (Nat.max 1 ((L + k - 1) / k))))
              = row_chunks k row).
  { rewrite map_map. unfold row_chunks. rewrite Hrow.
    apply map_ext. intros j. now apply nth_map_slice. }
  split; [exact E|]. rewrite E. now apply row_chunks_concat.
Qed.

Lemma split_cuts_every_sample_alike_witness :
  exists chunks,
    split [[1; 2; 3; 4; 5]; [6; 7; 8; 9; 10]]%Z 2 = Ok chunks /\
    length chunks = 3%nat /\
    concat (map (fun c => nth 1 c []) chunks) = [6; 7; 8; 9; 10]%Z.
Proof.
  destruct (@split_cuts_every_sample_alike
              [[1; 2; 3; 4; 5]; [6; 7; 8; 9; 10]]%Z 2 5 1 [6; 7; 8; 9; 10]%Z)
    as (chunks & E & Hn & _ & Hc).
  - lia.
  - repeat constructor.
  - reflexivity.
  - exists chunks. split; [exact E|]. split; [exact Hn|exact Hc].
Defined.
